(** * GMV daily ETL ([q2/app/main.py]): a model of [GmvEtlJob]

    The job reads the bronze tables of one processing date, keeps the latest
    version of every purchase, joins, filters, aggregates the daily GMV per
    subsidiary and loads the result into a Delta table that is versioned with
    an [is_latest] flag.

    A DataFrame is modelled by the list of rows it evaluates to; the order of
    the list is the order in which the rows reach an operator and carries no
    meaning of its own.  A column value is an [option]: [None] is SQL's NULL.
    Timestamps and dates are integers.  The source declares no type for
    [purchase_total_value]; it is read as a [bigint] column, a number of
    minor units, whose [sum] Spark computes in 64-bit arithmetic. *)

From stdpp Require Import base decidable option numbers list gmap strings.

Local Open Scope Z_scope.

(** ** SQL's three-valued conditions *)

Module sql.

(** [a = b] in a condition: NULL as soon as one side is NULL. *)
Definition eq `{EqDecision A} (a b : option A) : option bool :=
  match a, b with
  | Some x, Some y => Some (bool_decide (x = y))
  | _, _ => None
  end.

(** [a AND b], Kleene's conjunction. *)
Definition and (a b : option bool) : option bool :=
  match a, b with
  | Some false, _ | _, Some false => Some false
  | Some true, Some true => Some true
  | _, _ => None
  end.

(** [col.isNotNull()] is never NULL itself. *)
Definition isNotNull {A} (a : option A) : option bool :=
  Some (bool_decide (is_Some a)).

(** A filter, a join and a merge keep a row when the condition is true;
    false and NULL both reject it. *)
Definition holds (c : option bool) : Prop := c = Some true.

(** A 64-bit integer in two's complement: what is left of [z] in the range
    from -2^63 to 2^63 - 1. *)
Definition wrap64 (z : Z) : Z := (z + 2 ^ 63) mod 2 ^ 64 - 2 ^ 63.

(** [+] on [bigint] values outside ANSI mode: no overflow check, the result
    wraps around. *)
Definition add64 (x y : Z) : Z := wrap64 (x + y).

(** [sum] skips NULLs and is NULL when nothing is left; the values are added
    one after the other with the [+] of the column type. *)
Definition sum (vs : list (option Z)) : option Z :=
  match omap id vs with
  | [] => None
  | z :: zs => Some (foldl add64 0 (z :: zs))
  end.

(** [orderBy(col.desc())]: descending, NULLs last.  [desc_before a b] says
    that [a] is sorted strictly before [b]. *)
Definition desc_before (a b : option Z) : Prop :=
  match a, b with
  | Some x, Some y => y < x
  | Some _, None => True
  | None, _ => False
  end.

End sql.

Global Instance sql_holds_dec c : Decision (sql.holds c).
Proof. unfold sql.holds. apply _. Defined.

Global Instance sql_desc_before_dec a b : Decision (sql.desc_before a b).
Proof. destruct a, b; simpl; apply _. Defined.

(** ** [_get_latest_records]: [row_number()] over a window, keep rank 1 *)

Section window.
Context {R K : Type} `{EqDecision K}.
(** [Window.partitionBy(partition_keys)]: rows with the same value of the
    key columns share a partition, NULLs included. *)
Variable partition_keys : R → K.
(** [orderBy(col(order_key).desc())]. *)
Variable order_key : R → option Z.

(** Rows of the partition of [r] that the sort puts before [r]: among the
    rows that arrived earlier those that [r] does not beat, among the rows
    that arrive later those that beat [r].  Spark does not say which of two
    rows with the same order value comes first; here it is the earlier. *)
Definition ahead_if_earlier (r r' : R) : Prop :=
  partition_keys r' = partition_keys r
  ∧ ¬ sql.desc_before (order_key r) (order_key r').

Definition ahead_if_later (r r' : R) : Prop :=
  partition_keys r' = partition_keys r
  ∧ sql.desc_before (order_key r') (order_key r).

(** [df.withColumn("rn", row_number().over(window_spec))]; [seen] holds the
    rows already numbered. *)
Fixpoint row_number_over (seen rest : list R) : list (R * nat) :=
  match rest with
  | [] => []
  | r :: rest' =>
      (r, S (length (filter (ahead_if_earlier r) seen)
             + length (filter (ahead_if_later r) rest')))
      :: row_number_over (r :: seen) rest'
  end.

(** [.filter(col("rn") == 1).drop("rn")]. *)
Definition _get_latest_records (df : list R) : list R :=
  (filter (λ rn, rn.2 = 1%nat) (row_number_over [] df)).*1.

(** The rows kept among [rest] when [seen] went before; the function above
    is the case of nothing seen. *)
Definition latest_after (seen rest : list R) : list R :=
  (filter (λ rn, rn.2 = 1%nat) (row_number_over seen rest)).*1.

End window.

(** ** The bronze tables *)

Module bronze.

(** [bronze.purchase] and [bronze.purchase_extra_info] carry the natural
    key of a purchase, the time of the change and the day of capture.  Their
    other columns are not declared in the source: [C] is the type of what a
    row holds besides. *)
Record row (C : Type) := Row {
  purchase_id : option Z;
  purchase_partition : option Z;
  transaction_datetime : option Z;
  transaction_date : option Z;
  columns : C
}.
Global Arguments Row {C}.
Global Arguments purchase_id {C}.
Global Arguments purchase_partition {C}.
Global Arguments transaction_datetime {C}.
Global Arguments transaction_date {C}.
Global Arguments columns {C}.

(** Of [bronze.product_item] the job reads the day of capture only. *)
Record item (I : Type) := Item {
  item_transaction_date : option Z;
  item_columns : I
}.
Global Arguments Item {I}.
Global Arguments item_transaction_date {I}.
Global Arguments item_columns {I}.

(** A column that the transformation reads after the join belongs to one of
    the two joined tables (Spark rejects a name that both sides have). *)
Inductive column (P E V : Type) :=
| of_purchase (read : P → option V)
| of_purchase_extra_info (read : E → option V).
Global Arguments of_purchase {P E V}.
Global Arguments of_purchase_extra_info {P E V}.

(** Where the four columns of the transformation live. *)
Record schema (P E : Type) := Schema {
  release_date : column P E Z;
  purchase_status : column P E string;
  purchase_total_value : column P E Z;
  subsidiary : column P E string
}.
Global Arguments Schema {P E}.
Global Arguments release_date {P E}.
Global Arguments purchase_status {P E}.
Global Arguments purchase_total_value {P E}.
Global Arguments subsidiary {P E}.

(** [["purchase_id", "purchase_partition"]] as partition key of the window. *)
Definition natural_key {C} (r : row C) : option Z * option Z :=
  (purchase_id r, purchase_partition r).

(** The same two columns as join condition: an equi-join compares with [=]. *)
Definition on_natural_key {P E} (p : row P) (e : row E) : option bool :=
  sql.and (sql.eq (purchase_id p) (purchase_id e))
          (sql.eq (purchase_partition p) (purchase_partition e)).

End bronze.

(** ** DataFrame operators *)

(** [left.join(right, on, "left")]: a left row is paired with every right row
    the condition holds for, and with NULLs when there is none. *)
Definition join_left {L R : Type} (on : L → R → option bool)
    (left : list L) (right : list R) : list (L * option R) :=
  left ≫= λ l,
    match filter (λ r, sql.holds (on l r)) right with
    | [] => [(l, None)]
    | rs => (λ r, (l, Some r)) <$> rs
    end.

(** [col(name)] on a joined row; a column of the right side is NULL on a row
    that found no partner. *)
Definition col {P E V} (c : bronze.column P E V)
    (j : bronze.row P * option (bronze.row E)) : option V :=
  match c with
  | bronze.of_purchase read => read (bronze.columns j.1)
  | bronze.of_purchase_extra_info read => j.2 ≫= λ e, read (bronze.columns e)
  end.

(** [df.groupBy(by).agg(sum(measure))]: one row per distinct value of the
    grouping columns (NULL is a value of its own), in order of appearance. *)
Definition groupBy_sum {J G : Type} `{EqDecision G} (by_cols : J → G)
    (measure : J → option Z) (df : list J) : list (G * option Z) :=
  (λ g, (g, sql.sum (measure <$> filter (λ j, by_cols j = g) df)))
    <$> remove_dups (by_cols <$> df).

(** ** The rows of [silver.fct_gmv_diario] *)

Record gmv_row := GmvRow {
  gmv_date : option Z;
  subsidiary : option string;
  gmv_total_day : option Z;
  calculation_timestamp : Z;
  is_latest : bool
}.

Global Instance gmv_row_eq_dec : EqDecision gmv_row.
Proof. solve_decision. Defined.

(** The key of a version chain. *)
Definition gmv_key (r : gmv_row) : option Z * option string :=
  (gmv_date r, subsidiary r).

Definition set_is_latest (b : bool) (r : gmv_row) : gmv_row :=
  {| gmv_date := gmv_date r; subsidiary := subsidiary r;
     gmv_total_day := gmv_total_day r;
     calculation_timestamp := calculation_timestamp r; is_latest := b |}.

(** ** [transform_gmv_snapshot] *)

Section transform.
Context {P E : Type} (sch : bronze.schema P E).

(** [(col("release_date").isNotNull()) &
     (col("purchase_status") == "APROVADA")] *)
Definition eligible (j : bronze.row P * option (bronze.row E)) : option bool :=
  sql.and (sql.isNotNull (col (bronze.release_date sch) j))
          (sql.eq (col (bronze.purchase_status sch) j) (Some "APROVADA"%string)).

(** [groupBy("release_date", "subsidiary")] *)
Definition gmv_group (j : bronze.row P * option (bronze.row E))
    : option Z * option string :=
  (col (bronze.release_date sch) j, col (bronze.subsidiary sch) j).

(** [now] is the value of [current_timestamp()] when the snapshot is
    evaluated. *)
Definition transform_gmv_snapshot (now : Z)
    (purchase_df : list (bronze.row P))
    (purchase_extra_info_df : list (bronze.row E)) : list gmv_row :=
  let latest_purchase :=
    _get_latest_records bronze.natural_key bronze.transaction_datetime
      purchase_df in
  let latest_purchase_info :=
    _get_latest_records bronze.natural_key bronze.transaction_datetime
      purchase_extra_info_df in
  let joined_df :=
    join_left bronze.on_natural_key latest_purchase latest_purchase_info in
  let gmv_eligible_purchases :=
    filter (λ j, sql.holds (eligible j)) joined_df in
  let daily_gmv :=
    groupBy_sum gmv_group (col (bronze.purchase_total_value sch))
      gmv_eligible_purchases in
  (λ g, {| gmv_date := g.1.1; subsidiary := g.1.2; gmv_total_day := g.2;
           calculation_timestamp := now; is_latest := true |})
    <$> daily_gmv.

End transform.

(** ** The Delta tables of the metastore *)

Record delta_table := DeltaTable {
  partition_by : list string;
  table_rows : list gmv_row
}.

Inductive exception :=
| TableOrViewNotFound (name : string)
| TableAlreadyExists (name : string)
| MultipleSourceRowsMatchedTargetRow.

(** The writes of [load_data_to_delta], in the words of the source. *)
Inductive delta_write :=
| write_partitionBy_saveAsTable (df : list gmv_row) (cols : list string)
    (name : string)
| merge_whenMatchedUpdate_is_latest_false (source : list gmv_row)
    (name : string)
| write_append_saveAsTable (df : list gmv_row) (name : string).

(** ["target.gmv_date = source.gmv_date AND target.subsidiary =
    source.subsidiary AND target.is_latest = true"] *)
Definition merge_condition (target source : gmv_row) : option bool :=
  sql.and
    (sql.and (sql.eq (gmv_date target) (gmv_date source))
             (sql.eq (subsidiary target) (subsidiary source)))
    (sql.eq (Some (is_latest target)) (Some true)).

Definition matched (source : list gmv_row) (target : gmv_row) : list gmv_row :=
  filter (λ s, sql.holds (merge_condition target s)) source.

(** [whenMatchedUpdate(set={"is_latest": lit(False)})] on one target row. *)
Definition supersede (source : list gmv_row) (target : gmv_row) : gmv_row :=
  match matched source target with
  | [] => target
  | _ :: _ => set_is_latest false target
  end.

(** Delta refuses a merge in which several source rows match one target row
    that a matched clause would update, and then changes nothing. *)
Definition ambiguous (source : list gmv_row) (target : gmv_row) : Prop :=
  (1 < length (matched source target))%nat.

Global Instance ambiguous_dec source target : Decision (ambiguous source target).
Proof. unfold ambiguous. apply _. Defined.

Definition merge_rows (source target : list gmv_row)
    : exception + list gmv_row :=
  if decide (Exists (ambiguous source) target)
  then inl MultipleSourceRowsMatchedTargetRow
  else inr (supersede source <$> target).

(** One write against the metastore.  [saveAsTable] without a mode fails on
    a table that exists; [DeltaTable.forName] fails on one that does not;
    mode [append] adds to the table, or creates it unpartitioned. *)
Definition exec_write (w : delta_write) (tables : gmap string delta_table)
    : exception + gmap string delta_table :=
  match w with
  | write_partitionBy_saveAsTable df cols name =>
      match tables !! name with
      | Some _ => inl (TableAlreadyExists name)
      | None => inr (<[name := DeltaTable cols df]> tables)
      end
  | merge_whenMatchedUpdate_is_latest_false source name =>
      match tables !! name with
      | None => inl (TableOrViewNotFound name)
      | Some t =>
          match merge_rows source (table_rows t) with
          | inl e => inl e
          | inr rows' =>
              inr (<[name := DeltaTable (partition_by t) rows']> tables)
          end
      end
  | write_append_saveAsTable df name =>
      match tables !! name with
      | None => inr (<[name := DeltaTable [] df]> tables)
      | Some t =>
          inr (<[name := DeltaTable (partition_by t) (table_rows t ++ df)]>
                 tables)
      end
  end.

(** Statements run in order; an exception ends the run and leaves the tables
    as the statements before it made them. *)
Fixpoint exec_writes (ws : list delta_write) (tables : gmap string delta_table)
    : gmap string delta_table * option exception :=
  match ws with
  | [] => (tables, None)
  | w :: ws' =>
      match exec_write w tables with
      | inl e => (tables, Some e)
      | inr tables' => exec_writes ws' tables'
      end
  end.

(** ** [load_data_to_delta] *)

(** [DeltaTable.isDeltaTable(self.spark, target_table_name)].  In
    delta-core 2.4.0, the version that [_create_spark_session] loads, the
    second argument is a file path, and the answer says whether a Delta
    table lies at that path.  The source passes the name of a table of the
    metastore.  [saveAsTable] keeps the files of such a table under the
    warehouse directory, not at the path that the name spells, and the model
    has no Delta files but those of the metastore: for a table name the
    answer is no, whether the metastore has the table or not. *)
Definition isDeltaTable (tables : gmap string delta_table)
    (identifier : string) : bool :=
  false.

(** The [else] branch: [DeltaTable.forName] and the merge that clears the
    flags, then the append. *)
Definition merge_branch (df_to_load : list gmv_row)
    (target_table_name : string) : list delta_write :=
  [merge_whenMatchedUpdate_is_latest_false df_to_load target_table_name;
   write_append_saveAsTable df_to_load target_table_name].

(** The writes that the function issues, in program order. *)
Definition load_writes (df_to_load : list gmv_row) (target_table_name : string)
    (tables : gmap string delta_table) : list delta_write :=
  match df_to_load with
  | [] => []
  | _ :: _ =>
      if negb (isDeltaTable tables target_table_name)
      then [write_partitionBy_saveAsTable df_to_load ["gmv_date"%string]
              target_table_name]
      else merge_branch df_to_load target_table_name
  end.

Definition load_data_to_delta (df_to_load : list gmv_row)
    (target_table_name : string) (tables : gmap string delta_table)
    : gmap string delta_table * option exception :=
  exec_writes (load_writes df_to_load target_table_name tables) tables.

(** ** [extract_source_data] and [run] *)

Record lake (P E I : Type) := Lake {
  purchase : option (list (bronze.row P));
  product_item : option (list (bronze.item I));
  purchase_extra_info : option (list (bronze.row E));
  delta : gmap string delta_table
}.
Global Arguments Lake {P E I}.
Global Arguments purchase {P E I}.
Global Arguments product_item {P E I}.
Global Arguments purchase_extra_info {P E I}.
Global Arguments delta {P E I}.

(** [self.spark.table(name)] fails on a table that is not there. *)
Definition spark_table {A} (name : string) (t : option (list A))
    : exception + list A :=
  match t with
  | Some df => inr df
  | None => inl (TableOrViewNotFound name)
  end.

Definition raising {A B} (m : exception + A) (k : A → exception + B)
    : exception + B :=
  match m with
  | inl e => inl e
  | inr a => k a
  end.

Notation "x ←! m ; k" := (raising m (λ x, k))
  (at level 20, m at level 100, k at level 200, right associativity,
   only parsing).

Section job.
Context {P E I : Type} (sch : bronze.schema P E).
(** [self.processing_date], fixed when the job is built. *)
Variable processing_date : Z.

Definition extract_source_data (lk : lake P E I)
    : exception
      + (list (bronze.row P) * list (bronze.item I) * list (bronze.row E)) :=
  purchase_df ←! spark_table "bronze.purchase" (purchase lk);
  product_item_df ←! spark_table "bronze.product_item" (product_item lk);
  purchase_extra_info_df ←!
    spark_table "bronze.purchase_extra_info" (purchase_extra_info lk);
  inr (filter (λ r, sql.holds (sql.eq (bronze.transaction_date r)
                                      (Some processing_date))) purchase_df,
       filter (λ r, sql.holds (sql.eq (bronze.item_transaction_date r)
                                      (Some processing_date)))
         product_item_df,
       filter (λ r, sql.holds (sql.eq (bronze.transaction_date r)
                                      (Some processing_date)))
         purchase_extra_info_df).

(** [run] passes every exception on after logging it. *)
Definition run (now : Z) (lk : lake P E I) : lake P E I * option exception :=
  match extract_source_data lk with
  | inl e => (lk, Some e)
  | inr (purchase_df, _, purchase_extra_info_df) =>
      let new_gmv_snapshot :=
        transform_gmv_snapshot sch now purchase_df purchase_extra_info_df in
      let loaded :=
        load_data_to_delta new_gmv_snapshot "silver.fct_gmv_diario"
          (delta lk) in
      (Lake (purchase lk) (product_item lk) (purchase_extra_info lk)
         loaded.1, loaded.2)
  end.

End job.

(** ** The version invariant of the destination *)

(** At most one row per (gmv_date, subsidiary) is flagged latest: the keys
    of the latest rows are pairwise different. *)
Definition one_latest_per_key (rows : list gmv_row) : Prop :=
  NoDup (gmv_key <$> filter (λ r, is_latest r = true) rows).

Global Instance one_latest_per_key_dec rows : Decision (one_latest_per_key rows).
Proof. unfold one_latest_per_key. apply _. Defined.

(** Rows of one key, in table order. *)
Definition rows_of_key (k : option Z * option string) (rows : list gmv_row)
    : list gmv_row :=
  filter (λ r, gmv_key r = k) rows.

(** ** A layout of the bronze tables, for examples *)

Module layout.

(** [bronze.purchase] holds the release date, the status and the value of a
    purchase; [bronze.purchase_extra_info] holds its subsidiary. *)
Record purchase_columns := PurchaseColumns {
  release_date : option Z;
  purchase_status : option string;
  purchase_total_value : option Z
}.

Record extra_info_columns := ExtraInfoColumns {
  subsidiary : option string
}.

Definition schema : bronze.schema purchase_columns extra_info_columns :=
  bronze.Schema (bronze.of_purchase release_date)
    (bronze.of_purchase purchase_status)
    (bronze.of_purchase purchase_total_value)
    (bronze.of_purchase_extra_info subsidiary).

(** A version of purchase [id], written at [datetime] on [day]. *)
Definition purchase (day id datetime : Z) (release : option Z)
    (status : string) (value : Z) : bronze.row purchase_columns :=
  bronze.Row (Some id) (Some 1) (Some datetime) (Some day)
    (PurchaseColumns release (Some status) (Some value)).

Definition extra_info (day id datetime : Z) (unit : string)
    : bronze.row extra_info_columns :=
  bronze.Row (Some id) (Some 1) (Some datetime) (Some day)
    (ExtraInfoColumns (Some unit)).

End layout.

(** ** [Logger.configure_logging]: the handlers of the logger *)

Section logger.
Context {H : Type} `{EqDecision H}.

(** [logger.removeHandler(handler)] takes the first occurrence of the handler
    out of [logger.handlers], when there is one. *)
Fixpoint removeHandler (handler : H) (handlers : list H) : list H :=
  match handlers with
  | [] => []
  | h :: handlers' =>
      if decide (h = handler) then handlers'
      else h :: removeHandler handler handlers'
  end.

(** [for handler in logger.handlers: logger.removeHandler(handler)].  The
    loop reads position [i] of the list as the body has left it and ends
    when there is no such position; [fuel] bounds the rounds. *)
Fixpoint remove_each (fuel i : nat) (handlers : list H) : list H :=
  match fuel with
  | O => handlers
  | S fuel' =>
      match handlers !! i with
      | None => handlers
      | Some handler =>
          remove_each fuel' (S i) (removeHandler handler handlers)
      end
  end.

(** [if logger.handlers: for ...]; every round takes a handler out, so the
    length of the list is fuel enough. *)
Definition detach_handlers (handlers : list H) : list H :=
  match handlers with
  | [] => []
  | _ :: _ => remove_each (length handlers) 0 handlers
  end.

(** The second, fourth, ... element of a list. *)
Fixpoint every_second (l : list H) : list H :=
  match l with
  | _ :: x :: l' => x :: every_second l'
  | _ => []
  end.

End logger.

(** * Facts *)

(** ** The descending order with NULLs last *)

Lemma desc_before_irrefl a : ¬ sql.desc_before a a.
Proof. destruct a; simpl; lia. Qed.

Lemma desc_before_asym a b : sql.desc_before a b → ¬ sql.desc_before b a.
Proof. destruct a, b; simpl; lia. Qed.

Lemma desc_before_trans a b c :
  sql.desc_before a b → sql.desc_before b c → sql.desc_before a c.
Proof. destruct a, b, c; simpl; lia. Qed.

Lemma desc_before_between a b c :
  sql.desc_before a c → sql.desc_before a b ∨ sql.desc_before b c.
Proof. destruct a, b, c; simpl; lia. Qed.

Lemma length_filter_0 {A} (P : A → Prop) `{∀ x, Decision (P x)} (l : list A) :
  length (filter P l) = 0%nat ↔ Forall (λ x, ¬ P x) l.
Proof.
  induction l as [|x l IH]; [by split|].
  rewrite filter_cons, Forall_cons. destruct (decide (P x)); simpl.
  - split; [lia | tauto].
  - tauto.
Qed.

Section window_facts.
Context {R K : Type} `{EqDecision K}.
Variable partition_keys : R → K.
Variable order_key : R → option Z.


Local Abbreviation earlier := (ahead_if_earlier partition_keys order_key).
Local Abbreviation later := (ahead_if_later partition_keys order_key).
Local Abbreviation latest := (latest_after partition_keys order_key).

Lemma latest_after_cons seen r rest :
  latest seen (r :: rest) =
    if decide (Forall (λ s, ¬ earlier r s) seen ∧ Forall (λ x, ¬ later r x) rest)
    then r :: latest (r :: seen) rest
    else latest (r :: seen) rest.
Proof.
  unfold latest_after. simpl. rewrite filter_cons. simpl.
  destruct (decide (S _ = 1%nat)) as [Hn|Hn], (decide (_ ∧ _)) as [Hf|Hf];
    simpl; try done; exfalso.
  - apply Hf. split; apply (length_filter_0 _); lia.
  - destruct Hf as [Hs Hr].
    apply (length_filter_0 _) in Hs. apply (length_filter_0 _) in Hr. lia.
Qed.

(** A kept row is a row of the input that no earlier row ties or beats and no
    later row beats, within its partition. *)
Lemma elem_of_latest_after seen rest r :
  r ∈ latest seen rest ↔
    ∃ l1 l2, rest = l1 ++ r :: l2
      ∧ Forall (λ s, ¬ earlier r s) (l1 ++ seen)
      ∧ Forall (λ x, ¬ later r x) l2.
Proof.
  revert seen. induction rest as [|a rest IH]; intros seen.
  - split; [by intros ?%elem_of_nil|]. by intros ([|??] & ? & ? & _).
  - rewrite latest_after_cons. split.
    + intros Hin. destruct (decide _) as [[Hs Hr]|_].
      * apply elem_of_cons in Hin as [->|Hin]; [by exists [], rest|].
        apply IH in Hin as (l1 & l2 & -> & Hs' & Hr').
        exists (a :: l1), l2. split_and!; [done| |done].
        rewrite Forall_app in Hs'. rewrite Forall_app, !Forall_cons in *.
        tauto.
      * apply IH in Hin as (l1 & l2 & -> & Hs' & Hr').
        exists (a :: l1), l2. split_and!; [done| |done].
        rewrite Forall_app in Hs'. rewrite Forall_app, !Forall_cons in *.
        tauto.
    + intros (l1 & l2 & Heq & Hs & Hr). destruct l1 as [|b l1]; simplify_eq/=.
      * rewrite decide_True by done. left.
      * assert (r ∈ latest (b :: seen) (l1 ++ r :: l2)).
        { apply IH. exists l1, l2. split_and!; [done| |done].
          apply Forall_cons in Hs as [? Hs].
          rewrite Forall_app in Hs. rewrite Forall_app, Forall_cons. tauto. }
        destruct (decide _); [by right|done].
Qed.

Lemma latest_after_subseteq seen rest r : r ∈ latest seen rest → r ∈ rest.
Proof.
  intros (l1 & l2 & -> & _)%elem_of_latest_after.
  apply elem_of_app. right. left.
Qed.

Lemma latest_after_NoDup seen rest : NoDup (partition_keys <$> latest seen rest).
Proof.
  revert seen. induction rest as [|a rest IH]; intros seen; [constructor|].
  rewrite latest_after_cons. destruct (decide _) as [[_ Hr]|_]; [|done].
  rewrite fmap_cons. apply NoDup_cons. split; [|done].
  intros (r & Hk & Hin)%list_elem_of_fmap.
  pose proof (latest_after_subseteq _ _ _ Hin) as Hrest.
  apply elem_of_latest_after in Hin as (l1 & l2 & _ & Hs & _).
  rewrite Forall_app, Forall_cons in Hs. destruct Hs as (_ & Ha & _).
  rewrite Forall_forall in Hr. apply (Hr r Hrest). split; [done|].
  destruct (decide (sql.desc_before (order_key r) (order_key a))); [done|].
  destruct Ha. by split.
Qed.

(** Every partition has a row that ranks first. *)
Lemma exists_top k l :
  k ∈ partition_keys <$> l →
  ∃ l1 r l2, l = l1 ++ r :: l2 ∧ partition_keys r = k
    ∧ Forall (λ s, ¬ earlier r s) l1 ∧ Forall (λ x, ¬ later r x) l2.
Proof.
  induction l as [|a l IH]; [by intros ?%elem_of_nil|].
  rewrite fmap_cons. intros Hk.
  destruct (decide (k ∈ partition_keys <$> l)) as [Hin|Hout].
  - destruct (IH Hin) as (l1 & r & l2 & -> & Hr & Hs & Hl).
    destruct (decide (partition_keys a = k
                      ∧ ¬ sql.desc_before (order_key r) (order_key a)))
      as [[Ha Hge]|Hno].
    + exists [], a, (l1 ++ r :: l2). split_and!; [done..|].
      rewrite Forall_app, Forall_cons. split_and!.
      * eapply Forall_impl; [exact Hs|]. intros x Hx [Hkx Hb]. apply Hx.
        split; [congruence|]. intros Hrx. apply Hge.
        eauto using desc_before_trans.
      * intros [_ Hb]. done.
      * eapply Forall_impl; [exact Hl|]. intros x Hx [Hkx Hb]. apply Hx.
        split; [congruence|].
        destruct (desc_before_between _ (order_key r) _ Hb); done.
    + exists (a :: l1), r, l2. split_and!; [done..| |done].
      apply Forall_cons. split; [|done]. intros [Hka Hb]. apply Hno.
      split; [congruence|done].
  - apply elem_of_cons in Hk as [->|?]; [|done].
    exists [], a, l. split_and!; [done..|].
    apply Forall_forall. intros x Hx [Hkx _]. apply Hout.
    rewrite <- Hkx. by apply list_elem_of_fmap_2.
Qed.

(** Input that is deduplicated already passes unchanged. *)
Lemma latest_after_unique seen rest :
  (∀ s x, s ∈ seen → x ∈ rest → partition_keys s ≠ partition_keys x) →
  NoDup (partition_keys <$> rest) →
  latest seen rest = rest.
Proof.
  revert seen. induction rest as [|a rest IH]; intros seen Hseen Hnd; [done|].
  rewrite fmap_cons in Hnd. apply NoDup_cons in Hnd as [Ha Hnd].
  rewrite latest_after_cons, decide_True.
  - f_equal. apply IH; [|done]. intros s x [->|Hs]%elem_of_cons Hx.
    + intros Heq. apply Ha. rewrite Heq. by apply list_elem_of_fmap_2.
    + apply Hseen; [done|by right].
  - split; apply Forall_forall.
    + intros s Hs [Hk _]. by apply (Hseen s a Hs); [left|].
    + intros x Hx [Hk _]. apply Ha. rewrite <- Hk.
      by apply list_elem_of_fmap_2.
Qed.

Lemma get_latest_records_unique (df : list R) :
  NoDup (partition_keys <$> df) →
  _get_latest_records partition_keys order_key df = df.
Proof.
  intros Hnd. apply (latest_after_unique [] df); [|done].
  by intros s x ?%elem_of_nil.
Qed.

(** C4. [_get_latest_records] keeps exactly one row of every partition of its
    input: the kept rows have pairwise different partition keys, their keys
    are the keys of the input, their number is the number of distinct keys,
    nothing is kept only when nothing came in, and no row of the input is
    sorted before the kept row of its partition by the descending order. *)
Theorem get_latest_records_one_per_partition (df : list R) :
  let kept := _get_latest_records partition_keys order_key df in
  NoDup (partition_keys <$> kept)
  ∧ (∀ k, k ∈ partition_keys <$> kept ↔ k ∈ partition_keys <$> df)
  ∧ length kept = length (remove_dups (partition_keys <$> df))
  ∧ (kept = [] ↔ df = [])
  ∧ ∀ r, r ∈ kept →
      r ∈ df ∧ ∀ r', r' ∈ df → partition_keys r' = partition_keys r →
                 ¬ sql.desc_before (order_key r') (order_key r).
Proof.
  intros kept. change kept with (latest [] df).
  assert (Hkeys : ∀ k, k ∈ partition_keys <$> latest [] df
                       ↔ k ∈ partition_keys <$> df).
  { intros k. split.
    - intros (r & -> & Hr)%list_elem_of_fmap.
      apply list_elem_of_fmap_2. by eapply latest_after_subseteq.
    - intros (l1 & r & l2 & -> & <- & Hs & Hl)%exists_top.
      apply list_elem_of_fmap_2, elem_of_latest_after.
      exists l1, l2. by rewrite app_nil_r. }
  split_and!.
  - apply latest_after_NoDup.
  - done.
  - rewrite <- (length_fmap partition_keys). apply Permutation_length.
    apply NoDup_Permutation;
      [apply latest_after_NoDup | apply NoDup_remove_dups |].
    intros k. by rewrite elem_of_remove_dups.
  - split; [|by intros ->].
    intros Hnil. destruct df as [|a df]; [done|]. exfalso.
    assert (Ha : partition_keys a ∈ partition_keys <$> latest [] (a :: df))
      by (apply Hkeys; rewrite fmap_cons; left).
    rewrite Hnil in Ha. by apply elem_of_nil in Ha.
  - intros r Hr. split; [by eapply latest_after_subseteq|].
    apply elem_of_latest_after in Hr as (l1 & l2 & -> & Hs & Hl).
    rewrite app_nil_r in Hs. rewrite Forall_forall in Hs, Hl.
    intros r' Hin Hk.
    apply elem_of_app in Hin as [Hin|[->|Hin]%elem_of_cons].
    + intros Hb. apply (Hs r' Hin). split; [done|].
      by apply desc_before_asym.
    + apply desc_before_irrefl.
    + intros Hb. by apply (Hl r' Hin).
Qed.

End window_facts.

(** ** Conditions *)

Lemma holds_and a b : sql.holds (sql.and a b) ↔ sql.holds a ∧ sql.holds b.
Proof.
  unfold sql.holds. destruct a as [[]|], b as [[]|]; simpl;
    intuition discriminate.
Qed.

Lemma holds_eq `{EqDecision A} (a b : option A) :
  sql.holds (sql.eq a b) ↔ ∃ x, a = Some x ∧ b = Some x.
Proof.
  unfold sql.holds. destruct a as [x|], b as [y|]; simpl;
    [|by split; [|intros (? & ? & ?)]..].
  case_bool_decide as Hxy; split; try done.
  - intros _. exists x. by rewrite Hxy.
  - intros (? & ? & ?). destruct Hxy. congruence.
Qed.

Lemma holds_isNotNull {A} (a : option A) :
  sql.holds (sql.isNotNull a) ↔ is_Some a.
Proof.
  unfold sql.holds, sql.isNotNull. case_bool_decide; split; done.
Qed.

Lemma filter_ext_in {A} (P1 P2 : A → Prop) `{∀ x, Decision (P1 x)}
    `{∀ x, Decision (P2 x)} (l : list A) :
  (∀ x, x ∈ l → P1 x ↔ P2 x) → filter P1 l = filter P2 l.
Proof.
  induction l as [|a l IH]; intros Hext; [done|].
  rewrite !filter_cons, IH by (intros; apply Hext; by right).
  destruct (decide (P1 a)) as [H1|H1], (decide (P2 a)) as [H2|H2]; try done;
    apply Hext in H1 || apply Hext in H2; done || left.
Qed.

(** ** The left join *)

Section join_facts.
Context {L R : Type} (on : L → R → option bool).

Lemma join_left_cons l left right :
  join_left on (l :: left) right =
    match filter (λ r, sql.holds (on l r)) right with
    | [] => [(l, None)]
    | rs => (λ r, (l, Some r)) <$> rs
    end ++ join_left on left right.
Proof. reflexivity. Qed.

Lemma elem_of_join_left left right l o :
  (l, o) ∈ join_left on left right ↔
    l ∈ left ∧ match o with
               | Some r => r ∈ right ∧ sql.holds (on l r)
               | None => ∀ r, r ∈ right → ¬ sql.holds (on l r)
               end.
Proof.
  induction left as [|a left IH].
  { by split; [intros ?%elem_of_nil|intros [?%elem_of_nil _]]. }
  rewrite join_left_cons, elem_of_app, IH, elem_of_cons.
  destruct (filter _ right) as [|r0 rs] eqn:Hf.
  - rewrite list_elem_of_singleton. split.
    + intros [Heq|[??]]; [|tauto]. simplify_eq. split; [by left|].
      intros r Hr Hh. exact (filter_nil_not_elem_of _ _ r Hf Hh Hr).
    + intros [[->|Hl] Ho]; [|tauto]. destruct o as [r|]; [|by left].
      destruct Ho as [Hr Hh].
      destruct (filter_nil_not_elem_of _ _ r Hf Hh Hr).
  - rewrite <- Hf, list_elem_of_fmap. split.
    + intros [(r & Heq & Hr)|[??]]; [|tauto]. simplify_eq.
      apply list_elem_of_filter in Hr as [??]. tauto.
    + intros [[->|Hl] Ho]; [|tauto]. destruct o as [r|].
      * left. exists r. split; [done|]. apply list_elem_of_filter. tauto.
      * exfalso. assert (Hr0 : r0 ∈ filter (λ r, sql.holds (on a r)) right)
          by (rewrite Hf; left).
        apply list_elem_of_filter in Hr0 as [??]. by eapply Ho.
Qed.

(** Right rows that no left row matches can be dropped before the join. *)
Lemma join_left_matched_only left right :
  join_left on left right =
    join_left on left
      (filter (λ r, Exists (λ l, sql.holds (on l r)) left) right).
Proof.
  assert (Hsub : ∀ left', left' ⊆ left →
    join_left on left' right =
      join_left on left'
        (filter (λ r, Exists (λ l, sql.holds (on l r)) left) right)).
  { induction left' as [|a left' IH]; intros Hsub; [done|].
    rewrite !join_left_cons, <- IH by set_solver.
    rewrite list_filter_filter. f_equal.
    erewrite (filter_ext_in (λ r, _ ∧ _)); [done|].
    intros r _. simpl. rewrite Exists_exists. split; [tauto|].
    intros Hh. split; [done|]. exists a. split; [|done].
    apply Hsub. left. }
  by apply Hsub.
Qed.

End join_facts.

Section window_filter.
Context {R K : Type} `{EqDecision K}.
Variable partition_keys : R → K.
Variable order_key : R → option Z.
Local Abbreviation earlier := (ahead_if_earlier partition_keys order_key).
Local Abbreviation later := (ahead_if_later partition_keys order_key).
Local Abbreviation latest := (latest_after partition_keys order_key).

(** Partitions do not influence each other: dropping whole partitions before
    or after the window gives the same rows. *)
Lemma latest_after_filter (Q : R → Prop) `{∀ x, Decision (Q x)} seen rest :
  (∀ x y, partition_keys x = partition_keys y → Q x → Q y) →
  latest (filter Q seen) (filter Q rest) = filter Q (latest seen rest).
Proof.
  intros HQ. revert seen. induction rest as [|a rest IH]; intros seen; [done|].
  rewrite latest_after_cons, filter_cons.
  assert (Hskip : filter Q (latest (a :: seen) rest)
                  = latest (filter Q (a :: seen)) (filter Q rest))
    by (by rewrite IH).
  destruct (decide (Q a)) as [Ha|Ha].
  - rewrite latest_after_cons. rewrite filter_cons_True in Hskip by done.
    assert (Hiff : Forall (λ s, ¬ earlier a s) (filter Q seen)
                   ∧ Forall (λ x, ¬ later a x) (filter Q rest)
                   ↔ Forall (λ s, ¬ earlier a s) seen
                     ∧ Forall (λ x, ¬ later a x) rest).
    { rewrite !Forall_forall.
      setoid_rewrite list_elem_of_filter.
      split; intros [Hs Hl];
        (split; [intros x Hx Hb; apply (Hs x) | intros x Hx Hb; apply (Hl x)]);
        try tauto.
      - split; [|done]. destruct Hb as [Hk _]. by apply (HQ a).
      - split; [|done]. destruct Hb as [Hk _]. by apply (HQ a). }
    destruct (decide (_ ∧ Forall _ (filter Q rest))) as [Hd|Hd],
             (decide (_ ∧ Forall _ rest)) as [Hd'|Hd']; try tauto.
    + by rewrite filter_cons_True, Hskip.
    + by rewrite Hskip.
  - rewrite filter_cons_False in Hskip by done.
    destruct (decide _); [rewrite filter_cons_False by done|]; by rewrite Hskip.
Qed.

Lemma get_latest_records_filter (Q : R → Prop) `{∀ x, Decision (Q x)} df :
  (∀ x y, partition_keys x = partition_keys y → Q x → Q y) →
  _get_latest_records partition_keys order_key (filter Q df)
  = filter Q (_get_latest_records partition_keys order_key df).
Proof. intros HQ. by apply (latest_after_filter Q [] df). Qed.

End window_filter.

(** ** Grouping and summing *)

Lemma wrap64_range z : - 2 ^ 63 ≤ sql.wrap64 z < 2 ^ 63.
Proof.
  unfold sql.wrap64.
  pose proof (Z.mod_pos_bound (z + 2 ^ 63) (2 ^ 64)). lia.
Qed.

Lemma wrap64_in_range z : - 2 ^ 63 ≤ z < 2 ^ 63 → sql.wrap64 z = z.
Proof. intros Hz. unfold sql.wrap64. rewrite Z.mod_small; lia. Qed.

Lemma wrap64_mod z : sql.wrap64 z mod 2 ^ 64 = z mod 2 ^ 64.
Proof.
  unfold sql.wrap64.
  rewrite <- Zminus_mod_idemp_l, Z.mod_mod by lia.
  rewrite Zminus_mod_idemp_l. f_equal. lia.
Qed.

Lemma wrap64_congr a b :
  a mod 2 ^ 64 = b mod 2 ^ 64 → sql.wrap64 a = sql.wrap64 b.
Proof.
  intros Hab. unfold sql.wrap64.
  rewrite <- (Zplus_mod_idemp_l a), Hab, Zplus_mod_idemp_l. done.
Qed.

Lemma wrap64_add_l a b :
  sql.wrap64 (sql.wrap64 a + b) = sql.wrap64 (a + b).
Proof.
  apply wrap64_congr.
  by rewrite <- Zplus_mod_idemp_l, wrap64_mod, Zplus_mod_idemp_l.
Qed.

(** Adding one value after the other with wrap-around is adding them all
    and wrapping once. *)
Lemma foldl_add64 (l : list Z) (acc : Z) :
  foldl sql.add64 acc l =
    match l with
    | [] => acc
    | _ :: _ => sql.wrap64 (acc + foldr Z.add 0 l)
    end.
Proof.
  revert acc. induction l as [|a l IH]; intros acc; [done|].
  simpl. rewrite IH. unfold sql.add64. destruct l as [|b l].
  - simpl. f_equal. lia.
  - rewrite wrap64_add_l. f_equal. simpl. lia.
Qed.

Lemma sum_wrapped (vs : list (option Z)) :
  sql.sum vs =
    match omap id vs with
    | [] => None
    | z :: zs => Some (sql.wrap64 (foldr Z.add 0 (z :: zs)))
    end.
Proof.
  unfold sql.sum. destruct (omap id vs) as [|z zs]; [done|].
  by rewrite foldl_add64.
Qed.

Lemma sum_nulls (vs : list (option Z)) :
  Forall (λ v, v = None) vs → sql.sum vs = None.
Proof.
  intros Hvs. unfold sql.sum.
  assert (Hid : omap id vs = []); [|by rewrite Hid].
  induction Hvs as [|v vs -> _ IH]; [done|]. csimpl. by rewrite IH.
Qed.

Section groupBy_facts.
Context {J G : Type} `{EqDecision G}.
Variable by_cols : J → G.
Variable measure : J → option Z.

Lemma groupBy_sum_keys df :
  (groupBy_sum by_cols measure df).*1 = remove_dups (by_cols <$> df).
Proof.
  unfold groupBy_sum. rewrite <- list_fmap_compose.
  by rewrite list_fmap_id.
Qed.

Lemma elem_of_groupBy_sum df g total :
  (g, total) ∈ groupBy_sum by_cols measure df ↔
    g ∈ by_cols <$> df
    ∧ total = sql.sum (measure <$> filter (λ j, by_cols j = g) df).
Proof.
  unfold groupBy_sum. rewrite list_elem_of_fmap.
  setoid_rewrite elem_of_remove_dups. split.
  - intros (g' & Heq & Hin). by simplify_eq.
  - intros [Hin ->]. by exists g.
Qed.

End groupBy_facts.

(** ** The transformation *)

Section transform_facts.
Context {P E : Type} (sch : bronze.schema P E).

Local Abbreviation latest_of df :=
  (_get_latest_records bronze.natural_key bronze.transaction_datetime df).

(** The filter of the source, read as a proposition. *)
Lemma eligible_iff (j : bronze.row P * option (bronze.row E)) :
  sql.holds (eligible sch j) ↔
    is_Some (col (bronze.release_date sch) j)
    ∧ col (bronze.purchase_status sch) j = Some "APROVADA"%string.
Proof.
  unfold eligible. rewrite holds_and, holds_isNotNull, holds_eq.
  split; intros [Hd Hs]; (split; [done|]).
  - destruct Hs as (x & ? & ?). congruence.
  - by exists "APROVADA"%string.
Qed.

(** The join condition looks at the natural key only. *)
Lemma on_natural_key_key {C} (p p' : bronze.row C) (e : bronze.row E) :
  bronze.natural_key p = bronze.natural_key p' →
  bronze.on_natural_key p e = bronze.on_natural_key p' e.
Proof.
  unfold bronze.natural_key, bronze.on_natural_key. intros [= -> ->]. done.
Qed.

Lemma on_natural_key_key_r {C} (p : bronze.row C) (e e' : bronze.row E) :
  bronze.natural_key e = bronze.natural_key e' →
  bronze.on_natural_key p e = bronze.on_natural_key p e'.
Proof.
  unfold bronze.natural_key, bronze.on_natural_key. intros [= -> ->]. done.
Qed.

Lemma transform_gmv_snapshot_groups now
    (purchase_df : list (bronze.row P))
    (purchase_extra_info_df : list (bronze.row E)) :
  let joined :=
    join_left bronze.on_natural_key (latest_of purchase_df)
      (latest_of purchase_extra_info_df) in
  let snapshot :=
    transform_gmv_snapshot sch now purchase_df purchase_extra_info_df in
  NoDup (gmv_key <$> snapshot)
  ∧ (∀ k, k ∈ gmv_key <$> snapshot ↔
       ∃ j, j ∈ joined
         ∧ is_Some (col (bronze.release_date sch) j)
         ∧ col (bronze.purchase_status sch) j = Some "APROVADA"%string
         ∧ gmv_group sch j = k)
  ∧ ∀ row, row ∈ snapshot →
      gmv_total_day row =
        sql.sum (col (bronze.purchase_total_value sch) <$>
          filter (λ j, is_Some (col (bronze.release_date sch) j)
                       ∧ col (bronze.purchase_status sch) j
                         = Some "APROVADA"%string
                       ∧ gmv_group sch j = gmv_key row) joined)
      ∧ is_latest row = true
      ∧ calculation_timestamp row = now.
Proof.
  intros joined snapshot. unfold transform_gmv_snapshot in snapshot.
  fold joined in snapshot.
  set (rows := filter (λ j, sql.holds (eligible sch j)) joined) in *.
  set (measure := col (bronze.purchase_total_value sch)) in *.
  assert (Hkeys : gmv_key <$> snapshot
                  = remove_dups (gmv_group sch <$> rows)).
  { unfold snapshot. rewrite <- list_fmap_compose.
    rewrite <- (groupBy_sum_keys _ measure).
    apply list_fmap_ext. by intros ? [[??]?] ?. }
  split_and!.
  - rewrite Hkeys. apply NoDup_remove_dups.
  - intros k. rewrite Hkeys, elem_of_remove_dups, list_elem_of_fmap.
    unfold rows. setoid_rewrite list_elem_of_filter.
    setoid_rewrite eligible_iff. split.
    + intros (j & -> & (Hd & Hs) & Hin). by exists j.
    + intros (j & Hin & Hd & Hs & <-). by exists j.
  - intros row ([g total] & -> & Hin)%list_elem_of_fmap.
    apply elem_of_groupBy_sum in Hin as [_ ->]. simpl.
    split; [|done]. f_equal. f_equal. unfold rows.
    rewrite list_filter_filter. apply list_filter_iff. intros j.
    rewrite eligible_iff. unfold gmv_key. simpl. tauto.
Qed.

Lemma omap_id_fmap {A B} (f : A → option B) (l : list A) :
  omap id (f <$> l) = omap f l.
Proof.
  induction l as [|a l IH]; [done|]. csimpl. rewrite IH. by destruct (f a).
Qed.

(** C5, amended. On deduplicated inputs the snapshot has exactly one row per
    (release_date, subsidiary) group of the joined rows that have a release
    date and the status APROVADA.  Its total is made of the
    purchase_total_value of exactly these rows of the group, NULLs left out:
    NULL when no value is left, and else their sum in 64-bit arithmetic,
    which is their sum when that lies between -2^63 and 2^63 - 1 and wraps
    around when it does not.  A row failing either test adds to no total and
    makes no group; every row is flagged latest and carries the timestamp of
    the calculation. *)
Theorem transform_gmv_snapshot_sums_eligible now
    (purchase_df : list (bronze.row P))
    (purchase_extra_info_df : list (bronze.row E)) :
  NoDup (bronze.natural_key <$> purchase_df) →
  NoDup (bronze.natural_key <$> purchase_extra_info_df) →
  let joined :=
    join_left bronze.on_natural_key purchase_df purchase_extra_info_df in
  let snapshot :=
    transform_gmv_snapshot sch now purchase_df purchase_extra_info_df in
  NoDup (gmv_key <$> snapshot)
  ∧ (∀ k, k ∈ gmv_key <$> snapshot ↔
       ∃ j, j ∈ joined
         ∧ is_Some (col (bronze.release_date sch) j)
         ∧ col (bronze.purchase_status sch) j = Some "APROVADA"%string
         ∧ gmv_group sch j = k)
  ∧ ∀ row, row ∈ snapshot →
      let values :=
        omap (col (bronze.purchase_total_value sch))
          (filter (λ j, is_Some (col (bronze.release_date sch) j)
                        ∧ col (bronze.purchase_status sch) j
                          = Some "APROVADA"%string
                        ∧ gmv_group sch j = gmv_key row) joined) in
      gmv_total_day row =
        match values with
        | [] => None
        | _ :: _ => Some (sql.wrap64 (foldr Z.add 0 values))
        end
      ∧ (values ≠ [] → - 2 ^ 63 ≤ foldr Z.add 0 values < 2 ^ 63 →
         gmv_total_day row = Some (foldr Z.add 0 values))
      ∧ is_latest row = true
      ∧ calculation_timestamp row = now.
Proof.
  intros Hp He.
  pose proof (transform_gmv_snapshot_groups now purchase_df
                purchase_extra_info_df) as Hgroups.
  rewrite !get_latest_records_unique in Hgroups by done.
  destruct Hgroups as (Hnd & Hkeys & Hrows).
  split_and!; [done..|].
  intros row Hrow values. destruct (Hrows row Hrow) as (Htotal & Hl & Hnow).
  rewrite sum_wrapped, omap_id_fmap in Htotal. fold values in Htotal.
  split_and!; [by destruct values| |done..].
  intros Hne Hfit. rewrite Htotal. destruct values; [done|].
  by rewrite wrap64_in_range.
Qed.

(** C6. In the join of the latest purchases with the latest extra info, an
    extra-info row that no purchase matches on (purchase_id,
    purchase_partition) is in no joined row, and the snapshot is the same
    with all such rows removed from the input; a purchase that no extra-info
    row matches is joined exactly to NULLs, and every extra-info column reads
    NULL on it. *)
Theorem join_drops_unmatched_extra_info now
    (purchase_df : list (bronze.row P))
    (purchase_extra_info_df : list (bronze.row E)) :
  let latest_purchase := latest_of purchase_df in
  let latest_purchase_info := latest_of purchase_extra_info_df in
  let joined :=
    join_left bronze.on_natural_key latest_purchase latest_purchase_info in
  (∀ e, (∀ p, p ∈ latest_purchase →
           ¬ sql.holds (bronze.on_natural_key p e)) →
        ∀ j, j ∈ joined → j.2 ≠ Some e)
  ∧ transform_gmv_snapshot sch now purchase_df purchase_extra_info_df
    = transform_gmv_snapshot sch now purchase_df
        (filter (λ e, Exists (λ p, sql.holds (bronze.on_natural_key p e))
                        latest_purchase) purchase_extra_info_df)
  ∧ (∀ p, p ∈ latest_purchase →
        (∀ e, e ∈ latest_purchase_info →
           ¬ sql.holds (bronze.on_natural_key p e)) →
        (p, None) ∈ joined
        ∧ (∀ o, (p, o) ∈ joined → o = None)
        ∧ ∀ V (read : E → option V),
            col (bronze.of_purchase_extra_info read) (p, None) = None).
Proof.
  intros latest_purchase latest_purchase_info joined. split_and!.
  - intros e Hnone [p o] Hj Ho. simpl in Ho. subst o.
    apply elem_of_join_left in Hj as (Hp & _ & Hh). by eapply Hnone.
  - unfold transform_gmv_snapshot. fold latest_purchase.
    rewrite get_latest_records_filter.
    + by rewrite <- join_left_matched_only.
    + intros e e' Hk. rewrite !Exists_exists. intros (p & Hp & Hh).
      exists p. split; [done|]. by rewrite <- (on_natural_key_key_r p e e').
  - intros p Hp Hnone. split_and!.
    + apply elem_of_join_left. by split.
    + intros [e|] Ho; [|done].
      apply elem_of_join_left in Ho as (_ & He & Hh). by destruct (Hnone e).
    + done.
Qed.

End transform_facts.

(** ** The merge *)

Lemma elem_of_matched source target s :
  s ∈ matched source target ↔
    s ∈ source ∧ is_latest target = true
    ∧ gmv_key s = gmv_key target
    ∧ is_Some (gmv_date target) ∧ is_Some (subsidiary target).
Proof.
  unfold matched, merge_condition, gmv_key.
  rewrite list_elem_of_filter, !holds_and, !holds_eq. split.
  - intros [[[(d & Hd & Hd') (u & Hu & Hu')] (b & Hb & Hb')] Hin].
    rewrite Hd, Hd', Hu, Hu'.
    repeat split; eauto; congruence.
  - intros (Hin & Hl & Hk & [d Hd'] & [u Hu']). injection Hk as Hd Hu.
    split; [|done]. split_and!.
    + exists d. split; congruence.
    + exists u. split; congruence.
    + exists true. split; congruence.
Qed.

Lemma supersede_cases source target :
  (matched source target = [] ∧ supersede source target = target)
  ∨ (matched source target ≠ []
     ∧ supersede source target = set_is_latest false target).
Proof. unfold supersede. destruct (matched source target); [left|right]; done. Qed.

Lemma supersede_key source target :
  gmv_key (supersede source target) = gmv_key target.
Proof. by destruct (supersede_cases source target) as [[_ ->]|[_ ->]]. Qed.

(** A row without a partner in the source is not written. *)
Lemma supersede_other_key source target :
  gmv_key target ∉ gmv_key <$> source → supersede source target = target.
Proof.
  intros Hk. destruct (supersede_cases source target) as [[_ ->]|[Hm _]]; [done|].
  destruct (matched source target) as [|s ?] eqn:Heq; [done|].
  assert (Hs : s ∈ matched source target) by (rewrite Heq; left).
  apply elem_of_matched in Hs as (Hin & _ & Hkey & _).
  destruct Hk. rewrite <- Hkey. by apply list_elem_of_fmap_2.
Qed.

(** A row that is not the latest is not written. *)
Lemma supersede_not_latest source target :
  is_latest target = false → supersede source target = target.
Proof.
  intros Hl. destruct (supersede_cases source target) as [[_ ->]|[Hm _]]; [done|].
  destruct (matched source target) as [|s ?] eqn:Heq; [done|].
  assert (Hs : s ∈ matched source target) by (rewrite Heq; left).
  apply elem_of_matched in Hs as (_ & Hl' & _). congruence.
Qed.

(** The update only ever clears the flag. *)
Lemma supersede_latest source target :
  is_latest (supersede source target) = true →
  supersede source target = target ∧ matched source target = [].
Proof.
  by destruct (supersede_cases source target) as [[? ->]|[_ ->]].
Qed.

Lemma rows_of_key_supersede k source rows :
  rows_of_key k (supersede source <$> rows)
  = supersede source <$> rows_of_key k rows.
Proof.
  unfold rows_of_key. induction rows as [|r rows IH]; [done|].
  rewrite fmap_cons, !filter_cons, supersede_key, IH.
  by destruct (decide _).
Qed.

(** With the keys of the source pairwise different, no target row finds two
    partners. *)
Lemma unique_keys_filter {A B} `{EqDecision B} (f : A → B) (x : A) (l : list A) :
  NoDup (f <$> l) → x ∈ l → filter (λ y, f y = f x) l = [x].
Proof.
  induction l as [|a l IH]; [by intros _ ?%elem_of_nil|].
  rewrite fmap_cons, NoDup_cons, filter_cons. intros [Ha Hnd] Hx.
  assert (Hnone : f a ∉ f <$> l → filter (λ y, f y = f a) l = []).
  { clear. intros Ha. induction l as [|b l IH]; [done|].
    rewrite fmap_cons, not_elem_of_cons in Ha. destruct Ha as [Hne Ha].
    rewrite filter_cons_False by done. by apply IH. }
  apply elem_of_cons in Hx as [->|Hx].
  - rewrite decide_True by done. by rewrite Hnone.
  - rewrite decide_False; [by apply IH|].
    intros Heq. apply Ha. rewrite Heq. by apply list_elem_of_fmap_2.
Qed.

Lemma matched_unique source target :
  NoDup (gmv_key <$> source) → ¬ ambiguous source target.
Proof.
  intros Hnd. unfold ambiguous.
  destruct (matched source target) as [|s l] eqn:Heq; [simpl; lia|].
  assert (Hs : s ∈ matched source target) by (rewrite Heq; left).
  apply elem_of_matched in Hs as (Hin & _ & Hk & _).
  assert (Hsub : matched source target ⊆ filter (λ y, gmv_key y = gmv_key s) source).
  { intros y (Hy & _ & Hky & _)%elem_of_matched.
    apply list_elem_of_filter. split; [congruence|done]. }
  rewrite (unique_keys_filter gmv_key s source Hnd Hin) in Hsub.
  assert (Hnd' : NoDup (matched source target)).
  { apply NoDup_filter. by eapply NoDup_fmap_1. }
  rewrite Heq in Hnd', Hsub. destruct l as [|s' l]; [simpl; lia|]. exfalso.
  apply NoDup_cons in Hnd' as [Hnot _].
  assert (Hs' : s' ∈ [s]) by (apply Hsub; right; left).
  apply list_elem_of_singleton in Hs' as ->. apply Hnot. left.
Qed.

(** ** [load_data_to_delta], branch by branch *)

(** The test of l.138 is never met, so a snapshot with rows always goes to
    [saveAsTable]. *)
Lemma load_writes_rows df name tables :
  df ≠ [] →
  load_writes df name tables =
    [write_partitionBy_saveAsTable df ["gmv_date"%string] name].
Proof. by destruct df. Qed.

(** Without the target the table is created from the snapshot. *)
Lemma load_absent (df : list gmv_row) (name : string)
    (tables : gmap string delta_table) :
  df ≠ [] → tables !! name = None →
  load_data_to_delta df name tables =
    (<[name := DeltaTable ["gmv_date"%string] df]> tables, None).
Proof.
  intros Hdf Hnone. unfold load_data_to_delta.
  rewrite load_writes_rows by done. simpl. by rewrite Hnone.
Qed.

(** With the target there, [saveAsTable] has no mode to fall back on: it
    raises, and nothing is written. *)
Lemma load_on_existing_target (df : list gmv_row) (name : string)
    (tables : gmap string delta_table) (t : delta_table) :
  df ≠ [] → tables !! name = Some t →
  load_data_to_delta df name tables = (tables, Some (TableAlreadyExists name)).
Proof.
  intros Hdf Ht. unfold load_data_to_delta.
  rewrite load_writes_rows by done. simpl. by rewrite Ht.
Qed.

(** The [else] branch on a table that exists: either the merge is refused
    and nothing changes, or the latest rows that found a partner are flagged
    and the snapshot follows them. *)
Lemma merge_branch_existing df name tables t :
  tables !! name = Some t →
  exec_writes (merge_branch df name) tables =
    if decide (Exists (ambiguous df) (table_rows t))
    then (tables, Some MultipleSourceRowsMatchedTargetRow)
    else (<[name := DeltaTable (partition_by t)
                      ((supersede df <$> table_rows t) ++ df)]> tables,
          None).
Proof.
  intros Ht. unfold merge_branch. simpl. rewrite Ht. unfold merge_rows.
  destruct (decide _); [done|].
  rewrite lookup_insert_eq. simpl. by rewrite insert_insert_eq.
Qed.

(** C7. With an empty snapshot [load_data_to_delta] issues no write at all:
    whatever tables there are, with or without the target, they are returned
    as they were, so no row is changed or added and no table is created. *)
Theorem load_empty_snapshot_is_noop (name : string)
    (tables : gmap string delta_table) :
  load_writes [] name tables = []
  ∧ load_data_to_delta [] name tables = (tables, None)
  ∧ (load_data_to_delta [] name tables).1 !! name = tables !! name.
Proof. done. Qed.

(** C8. With a snapshot that has rows and no target table,
    [load_data_to_delta] issues the one write that creates the table,
    partitioned by gmv_date, and no merge; the table holds the snapshot as it
    is, and rows that are all flagged latest in the snapshot are so in the
    table. *)
Theorem load_creates_target (df : list gmv_row) (name : string)
    (tables : gmap string delta_table) :
  df ≠ [] → tables !! name = None →
  load_writes df name tables =
    [write_partitionBy_saveAsTable df ["gmv_date"%string] name]
  ∧ load_data_to_delta df name tables =
      (<[name := DeltaTable ["gmv_date"%string] df]> tables, None)
  ∧ (Forall (λ r, is_latest r = true) df →
     ∀ t, (load_data_to_delta df name tables).1 !! name = Some t →
          table_rows t = df ∧ Forall (λ r, is_latest r = true) (table_rows t)).
Proof.
  intros Hdf Hnone. rewrite load_absent by done.
  split_and!; [by apply load_writes_rows|done|].
  intros Hall t. simpl. rewrite lookup_insert_eq. by intros [= <-].
Qed.

Lemma load_creates_target_witness :
  let df := [GmvRow (Some 20240101) (Some "BR"%string) (Some 10) 1 true] in
  load_data_to_delta df "silver.fct_gmv_diario" ∅ =
    (<["silver.fct_gmv_diario"%string :=
         DeltaTable ["gmv_date"%string] df]> ∅, None).
Proof.
  intros df.
  apply (load_creates_target df "silver.fct_gmv_diario" ∅); [done|].
  apply lookup_empty.
Defined.

(** C3. On a target that exists, a row whose (gmv_date, subsidiary) is the
    key of no snapshot row stays in its place exactly as it was, is_latest
    included, whether the load goes through or raises; the rows of such keys
    are the same before and after. *)
Theorem load_keeps_rows_of_other_keys (df : list gmv_row) (name : string)
    (tables : gmap string delta_table) (t : delta_table) :
  df ≠ [] → tables !! name = Some t →
  ∃ t', (load_data_to_delta df name tables).1 !! name = Some t'
    ∧ (∀ i r, table_rows t !! i = Some r →
              gmv_key r ∉ gmv_key <$> df →
              table_rows t' !! i = Some r)
    ∧ filter (λ r, gmv_key r ∉ gmv_key <$> df) (table_rows t')
      = filter (λ r, gmv_key r ∉ gmv_key <$> df) (table_rows t).
Proof.
  intros Hdf Ht. rewrite (load_on_existing_target df name tables t) by done.
  by exists t.
Qed.

Lemma load_keeps_rows_of_other_keys_witness :
  let kept := GmvRow (Some 20240101) (Some "B"%string) (Some 20) 1 true in
  let t := DeltaTable ["gmv_date"%string]
             [GmvRow (Some 20240101) (Some "A"%string) (Some 10) 1 true; kept] in
  let df := [GmvRow (Some 20240101) (Some "A"%string) (Some 12) 2 true] in
  ∃ t', (load_data_to_delta df "silver.fct_gmv_diario"
           {[ "silver.fct_gmv_diario"%string := t ]}).1
          !! "silver.fct_gmv_diario"%string = Some t'
    ∧ table_rows t' !! 1%nat = Some kept.
Proof.
  intros kept t df.
  destruct (load_keeps_rows_of_other_keys df "silver.fct_gmv_diario"
              {[ "silver.fct_gmv_diario"%string := t ]} t)
    as (t' & Ht' & Hkeep & _); [done|reflexivity|].
  exists t'. split; [done|]. apply Hkeep; [reflexivity|].
  apply (bool_decide_unpack _). by vm_compute.
Defined.

(** C2, on the code.  The example of the specification: the target holds
    the one row (D1, A, 10) flagged latest, the snapshot the row (D1, A, 12).
    The test of l.138 asks for a Delta table at the file path that the table
    name spells and is not met; [saveAsTable] of l.141-142 finds the table
    and raises.  No merge is issued, and the key keeps its one row, still
    flagged latest.  The statements of l.146-156, had they been reached,
    give the two rows: the old one with its flag cleared, then the new
    one. *)
Theorem load_on_existing_target_example :
  let old := GmvRow (Some 20240101) (Some "A"%string) (Some 10) 1 true in
  let new := GmvRow (Some 20240101) (Some "A"%string) (Some 12) 2 true in
  let tables : gmap string delta_table :=
    {[ "silver.fct_gmv_diario"%string := DeltaTable ["gmv_date"%string] [old] ]} in
  load_writes [new] "silver.fct_gmv_diario" tables =
    [write_partitionBy_saveAsTable [new] ["gmv_date"%string]
       "silver.fct_gmv_diario"]
  ∧ load_data_to_delta [new] "silver.fct_gmv_diario" tables =
      (tables, Some (TableAlreadyExists "silver.fct_gmv_diario"))
  ∧ (load_data_to_delta [new] "silver.fct_gmv_diario" tables).1
      !! "silver.fct_gmv_diario"%string
    = Some (DeltaTable ["gmv_date"%string] [old])
  ∧ rows_of_key (gmv_key new) [old] = [old]
  ∧ (exec_writes (merge_branch [new] "silver.fct_gmv_diario") tables).1
      !! "silver.fct_gmv_diario"%string
    = Some (DeltaTable ["gmv_date"%string] [set_is_latest false old; new]).
Proof. done. Qed.

(** ** The version invariant under a load *)

(** The invariant, said with positions: two latest rows of one key are the
    same row. *)
Lemma one_latest_per_key_lookup rows :
  one_latest_per_key rows ↔
    ∀ i j r1 r2,
      rows !! i = Some r1 → rows !! j = Some r2 →
      is_latest r1 = true → is_latest r2 = true →
      gmv_key r1 = gmv_key r2 → i = j.
Proof.
  unfold one_latest_per_key. induction rows as [|a rows IH].
  - split; [by intros _ [|?] [|?]|constructor].
  - rewrite filter_cons. destruct (decide (is_latest a = true)) as [Ha|Ha].
    + rewrite fmap_cons, NoDup_cons, IH. split.
      * intros [Hnew Hrest] [|i] [|j] r1 r2 H1 H2 Hl1 Hl2 Hk;
          simpl in H1, H2; try (injection H1 as <-); try (injection H2 as <-);
          [done| | |f_equal; eapply Hrest; eassumption].
        -- destruct Hnew. rewrite Hk. apply list_elem_of_fmap_2.
           apply list_elem_of_filter. split; [done|].
           by eapply list_elem_of_lookup_2.
        -- destruct Hnew. rewrite <- Hk. apply list_elem_of_fmap_2.
           apply list_elem_of_filter. split; [done|].
           by eapply list_elem_of_lookup_2.
      * intros Hpos. split.
        -- intros (r & Hk & Hr)%list_elem_of_fmap.
           apply list_elem_of_filter in Hr as [Hl [j Hj]%list_elem_of_lookup_1].
           by specialize (Hpos 0%nat (S j) a r eq_refl Hj Ha Hl Hk).
        -- intros i j r1 r2 H1 H2 Hl1 Hl2 Hk.
           by specialize (Hpos (S i) (S j) r1 r2 H1 H2 Hl1 Hl2 Hk) as [= ->].
    + rewrite IH. split.
      * intros Hrest [|i] [|j] r1 r2 H1 H2 Hl1 Hl2 Hk;
          simpl in H1, H2; try (injection H1 as <-); try (injection H2 as <-);
          [done..|f_equal; eapply Hrest; eassumption].
      * intros Hpos i j r1 r2 H1 H2 Hl1 Hl2 Hk.
        by specialize (Hpos (S i) (S j) r1 r2 H1 H2 Hl1 Hl2 Hk) as [= ->].
Qed.

(** The rows that are latest after the update were latest before and found
    no partner. *)
Lemma filter_latest_supersede source (rows : list gmv_row) :
  filter (λ r, is_latest r = true) (supersede source <$> rows)
  = filter (λ r, matched source r = [])
      (filter (λ r, is_latest r = true) rows).
Proof.
  induction rows as [|r rows IH]; [done|].
  rewrite fmap_cons, !filter_cons, IH.
  destruct (supersede_cases source r) as [[Hm ->]|[Hm ->]].
  - destruct (decide (is_latest r = true)); [|done].
    by rewrite filter_cons_True.
  - simpl. destruct (decide (is_latest r = true)); [|done].
    by rewrite filter_cons_False.
Qed.




(** ** Loading the same snapshot again *)

(** C9, on the code.  Loading a snapshot a second time leaves the tables as
    the first load left them, for every snapshot and every state: the
    second load finds the target, which was there before or which the first
    load made, and a snapshot with rows then ends in [saveAsTable] raising.
    Nothing is appended again. *)
Theorem load_twice_is_load_once (df : list gmv_row) (name : string)
    (tables : gmap string delta_table) :
  (load_data_to_delta df name (load_data_to_delta df name tables).1).1
  = (load_data_to_delta df name tables).1
  ∧ (df ≠ [] →
     (load_data_to_delta df name (load_data_to_delta df name tables).1).2
     = Some (TableAlreadyExists name)).
Proof.
  destruct df as [|s df]; [done|].
  destruct (tables !! name) as [t|] eqn:Ht.
  - rewrite (load_on_existing_target (s :: df) name tables t) by done. simpl.
    rewrite (load_on_existing_target (s :: df) name tables t) by done.
    done.
  - rewrite (load_absent (s :: df) name tables) by done. simpl.
    rewrite (load_on_existing_target (s :: df) name _
               (DeltaTable ["gmv_date"%string] (s :: df)));
      [done|done|apply lookup_insert_eq].
Qed.

(** ** The job *)

Section job_facts.
Context {P E I : Type} (sch : bronze.schema P E).

(** C10. Two runs whose lakes differ in the rows of [bronze.product_item]
    only extract the same purchases and extra info, compute the same
    snapshot, end with the same exception or none and leave the same Delta
    tables. *)
Theorem run_ignores_product_item_rows (processing_date now : Z)
    (purchase_tbl : option (list (bronze.row P)))
    (extra_info_tbl : option (list (bronze.row E)))
    (tables : gmap string delta_table)
    (items1 items2 : list (bronze.item I)) :
  let lake1 := Lake purchase_tbl (Some items1) extra_info_tbl tables in
  let lake2 := Lake purchase_tbl (Some items2) extra_info_tbl tables in
  match extract_source_data processing_date lake1,
        extract_source_data processing_date lake2 with
  | inr (purchase1, _, extra1), inr (purchase2, _, extra2) =>
      purchase1 = purchase2 ∧ extra1 = extra2
      ∧ transform_gmv_snapshot sch now purchase1 extra1
        = transform_gmv_snapshot sch now purchase2 extra2
  | inl e1, inl e2 => e1 = e2
  | _, _ => False
  end
  ∧ (run sch processing_date now lake1).2 = (run sch processing_date now lake2).2
  ∧ delta (run sch processing_date now lake1).1
    = delta (run sch processing_date now lake2).1.
Proof.
  intros lake1 lake2. unfold run, extract_source_data, lake1, lake2.
  destruct purchase_tbl, extra_info_tbl; simpl; done.
Qed.

End job_facts.

(** ** The examples of the specification *)

(** Two approved purchases and a pending one of one day and one
    subsidiary: the total is the sum of the two, the pending one is left
    out. *)
Lemma transform_gmv_snapshot_sums_eligible_witness :
  let purchase_df :=
    [layout.purchase 20240101 1 100 (Some 20240101) "APROVADA" 10;
     layout.purchase 20240101 2 100 (Some 20240101) "APROVADA" 5;
     layout.purchase 20240101 3 100 (Some 20240101) "PENDENTE" 7] in
  let purchase_extra_info_df :=
    [layout.extra_info 20240101 1 100 "A"; layout.extra_info 20240101 2 100 "A";
     layout.extra_info 20240101 3 100 "A"] in
  let row := GmvRow (Some 20240101) (Some "A"%string) (Some 15) 7 true in
  transform_gmv_snapshot layout.schema 7 purchase_df purchase_extra_info_df
  = [row]
  ∧ gmv_total_day row = Some (foldr Z.add 0 [10; 5]).
Proof.
  intros purchase_df purchase_extra_info_df row.
  destruct (transform_gmv_snapshot_sums_eligible layout.schema 7 purchase_df
              purchase_extra_info_df) as (_ & _ & Hrows);
    [apply (bool_decide_unpack _); by vm_compute..|].
  split; [reflexivity|].
  destruct (Hrows row) as (_ & Hexact & _); [by left|].
  apply Hexact; [done|]. vm_compute. split; [discriminate|reflexivity].
Defined.

(** C5 as stated fails.  Two approved purchases of one day and one
    subsidiary with the values 2^63 - 1 and 1: their sum is 2^63, the total
    of the snapshot is -2^63. *)
Lemma transform_gmv_snapshot_sum_wraps :
  let purchase_df :=
    [layout.purchase 20240101 1 100 (Some 20240101) "APROVADA"
       9223372036854775807;
     layout.purchase 20240101 2 100 (Some 20240101) "APROVADA" 1] in
  let purchase_extra_info_df :=
    [layout.extra_info 20240101 1 100 "A";
     layout.extra_info 20240101 2 100 "A"] in
  let joined :=
    join_left bronze.on_natural_key purchase_df purchase_extra_info_df in
  let snapshot :=
    transform_gmv_snapshot layout.schema 7 purchase_df purchase_extra_info_df in
  NoDup (bronze.natural_key <$> purchase_df)
  ∧ NoDup (bronze.natural_key <$> purchase_extra_info_df)
  ∧ snapshot = [GmvRow (Some 20240101) (Some "A"%string)
                  (Some (-9223372036854775808)) 7 true]
  ∧ foldr Z.add 0
      (omap (col (bronze.purchase_total_value layout.schema)) joined)
    = 9223372036854775808
  ∧ ¬ (∀ row, row ∈ snapshot →
         gmv_total_day row =
           Some (foldr Z.add 0
                   (omap (col (bronze.purchase_total_value layout.schema))
                      (filter (λ j, is_Some (col (bronze.release_date
                                                    layout.schema) j)
                                    ∧ col (bronze.purchase_status
                                             layout.schema) j
                                      = Some "APROVADA"%string
                                    ∧ gmv_group layout.schema j = gmv_key row)
                         joined)))).
Proof.
  intros purchase_df purchase_extra_info_df joined snapshot. split_and!.
  - apply (bool_decide_unpack _). by vm_compute.
  - apply (bool_decide_unpack _). by vm_compute.
  - by vm_compute.
  - by vm_compute.
  - intros Hsum.
    specialize (Hsum (GmvRow (Some 20240101) (Some "A"%string)
                        (Some (-9223372036854775808)) 7 true)).
    assert (Hin : GmvRow (Some 20240101) (Some "A"%string)
                    (Some (-9223372036854775808)) 7 true ∈ snapshot)
      by (by left).
    apply Hsum in Hin. vm_compute in Hin. discriminate Hin.
Qed.

(** An extra-info row of a purchase that is not there changes nothing. *)
Lemma join_drops_unmatched_extra_info_witness :
  let purchase_df :=
    [layout.purchase 20240101 1 100 (Some 20240101) "APROVADA" 10] in
  let stray := layout.extra_info 20240101 9 100 "B" in
  let purchase_extra_info_df := [layout.extra_info 20240101 1 100 "A"; stray] in
  transform_gmv_snapshot layout.schema 7 purchase_df purchase_extra_info_df
  = transform_gmv_snapshot layout.schema 7 purchase_df
      [layout.extra_info 20240101 1 100 "A"].
Proof.
  intros purchase_df stray purchase_extra_info_df.
  destruct (join_drops_unmatched_extra_info layout.schema 7 purchase_df
              purchase_extra_info_df) as (_ & Hsame & _).
  rewrite Hsame. reflexivity.
Defined.

(** A purchase without extra info stays, with a NULL subsidiary. *)
Example purchase_without_extra_info :
  transform_gmv_snapshot layout.schema 7
    [layout.purchase 20240101 1 100 (Some 20240101) "APROVADA" 10] []
  = [GmvRow (Some 20240101) None (Some 10) 7 true].
Proof. reflexivity. Qed.

(** Of two versions of a purchase the later one counts. *)
Example latest_version_counts :
  transform_gmv_snapshot layout.schema 7
    [layout.purchase 20240101 1 100 (Some 20240101) "APROVADA" 10;
     layout.purchase 20240101 1 200 (Some 20240101) "CANCELADA" 10]
    [layout.extra_info 20240101 1 100 "A"]
  = [].
Proof. reflexivity. Qed.

(** * Further facts *)

(** ** More on the window *)

Lemma desc_before_total a b :
  sql.desc_before a b ∨ a = b ∨ sql.desc_before b a.
Proof.
  destruct a as [x|], b as [y|]; simpl; try tauto.
  destruct (Z.lt_trichotomy x y) as [?|[->|?]]; tauto.
Qed.

Section window_more.
Context {R K : Type} `{EqDecision K}.
Variable partition_keys : R → K.
Variable order_key : R → option Z.
Local Abbreviation earlier := (ahead_if_earlier partition_keys order_key).
Local Abbreviation later := (ahead_if_later partition_keys order_key).
Local Abbreviation latest := (latest_after partition_keys order_key).
Local Abbreviation kept := (_get_latest_records partition_keys order_key).

(** X1. Deduplicating what is deduplicated changes nothing. *)
Theorem get_latest_records_idempotent (df : list R) :
  _get_latest_records partition_keys order_key
    (_get_latest_records partition_keys order_key df)
  = _get_latest_records partition_keys order_key df.
Proof. apply get_latest_records_unique, latest_after_NoDup. Qed.

(** Without ties the kept rows are the rows that nothing of their partition
    is sorted before. *)
Lemma elem_of_get_latest_records_no_ties (df : list R) (r : R) :
  NoDup ((λ x, (partition_keys x, order_key x)) <$> df) →
  r ∈ kept df ↔
    r ∈ df ∧ ∀ r', r' ∈ df → partition_keys r' = partition_keys r →
                   ¬ sql.desc_before (order_key r') (order_key r).
Proof.
  intros Hnd. change (kept df) with (latest [] df).
  rewrite elem_of_latest_after. split.
  - intros (l1 & l2 & -> & Hs & Hl). rewrite app_nil_r in Hs.
    rewrite Forall_forall in Hs, Hl. split; [set_solver|].
    intros r' Hin Hk.
    apply elem_of_app in Hin as [Hin|[->|Hin]%elem_of_cons].
    + intros Hb. apply (Hs r' Hin). split; [done|]. by apply desc_before_asym.
    + apply desc_before_irrefl.
    + intros Hb. by apply (Hl r' Hin).
  - intros [(l1 & l2 & ->)%list_elem_of_split Hmax].
    exists l1, l2. rewrite app_nil_r. split; [done|].
    rewrite fmap_app, fmap_cons in Hnd.
    apply NoDup_app in Hnd as (_ & Hfresh & _).
    split; apply Forall_forall.
    + intros s Hs [Hk Hb].
      destruct (desc_before_total (order_key r) (order_key s))
        as [?|[Heq|Hsr]]; [done| |].
      * apply (Hfresh (partition_keys s, order_key s)).
        { apply list_elem_of_fmap. by exists s. }
        rewrite Hk, <- Heq. left.
      * apply (Hmax s); [set_solver|done..].
    + intros x Hx [Hk Hb]. apply (Hmax x); [set_solver|done..].
Qed.

(** X2. When no two rows of a partition have the same order value, the kept
    rows do not depend on the order in which the rows arrive. *)
Theorem get_latest_records_order_independent (df df' : list R) :
  NoDup ((λ x, (partition_keys x, order_key x)) <$> df) →
  df ≡ₚ df' →
  _get_latest_records partition_keys order_key df
  ≡ₚ _get_latest_records partition_keys order_key df'.
Proof.
  intros Hnd Hperm.
  assert (Hnd' : NoDup ((λ x, (partition_keys x, order_key x)) <$> df'))
    by (by rewrite <- Hperm).
  apply NoDup_Permutation.
  - eapply NoDup_fmap_1, (latest_after_NoDup partition_keys order_key [] df).
  - eapply NoDup_fmap_1, (latest_after_NoDup partition_keys order_key [] df').
  - intros r. rewrite !elem_of_get_latest_records_no_ties by done.
    by setoid_rewrite Hperm.
Qed.

(** A version that is older than one already there is never kept and pushes
    nothing out. *)
Lemma latest_after_stale seen rest p old :
  p ∈ seen ++ rest →
  partition_keys p = partition_keys old →
  sql.desc_before (order_key p) (order_key old) →
  latest seen (rest ++ [old]) = latest seen rest.
Proof.
  intros Hp Hk Hnew. revert seen Hp.
  induction rest as [|a rest IH]; intros seen Hp.
  - rewrite app_nil_r in Hp. simpl. rewrite latest_after_cons, decide_False; [done|].
    intros [Hs _]. rewrite Forall_forall in Hs. apply (Hs p Hp).
    split; [done|]. by apply desc_before_asym.
  - simpl. rewrite !latest_after_cons.
    rewrite IH.
    2:{ rewrite elem_of_app, elem_of_cons in Hp.
        rewrite elem_of_app, elem_of_cons. tauto. }
    assert (Hiff : Forall (λ s, ¬ earlier a s) seen
                   ∧ Forall (λ x, ¬ later a x) (rest ++ [old])
                   ↔ Forall (λ s, ¬ earlier a s) seen
                     ∧ Forall (λ x, ¬ later a x) rest).
    { rewrite Forall_app, Forall_singleton. split; [tauto|].
      intros [Hs Hl]. split_and!; [done..|]. intros [Hka Hb].
      assert (Hpa : sql.desc_before (order_key p) (order_key a))
        by eauto using desc_before_trans.
      rewrite Forall_forall in Hs, Hl.
      apply elem_of_app in Hp as [Hp|[->|Hp]%elem_of_cons].
      - apply (Hs p Hp). split; [congruence|]. by apply desc_before_asym.
      - by apply desc_before_irrefl in Hpa.
      - apply (Hl p Hp). split; [congruence|done]. }
    destruct (decide (_ ∧ Forall _ (rest ++ [old]))),
             (decide (_ ∧ Forall _ rest)); tauto || done.
Qed.

(** X3. A late arrival of an older version of a row that is in the input
    with a newer version changes nothing. *)
Theorem get_latest_records_ignores_stale (df : list R) (p old : R) :
  p ∈ df →
  partition_keys p = partition_keys old →
  sql.desc_before (order_key p) (order_key old) →
  _get_latest_records partition_keys order_key (df ++ [old])
  = _get_latest_records partition_keys order_key df.
Proof. intros. by apply (latest_after_stale [] df p old). Qed.

End window_more.

(** ** More on the join and the aggregation *)

Lemma on_natural_key_holds {C C'} (p : bronze.row C) (e : bronze.row C') :
  sql.holds (bronze.on_natural_key p e) ↔
    bronze.natural_key p = bronze.natural_key e
    ∧ is_Some (bronze.purchase_id p)
    ∧ is_Some (bronze.purchase_partition p).
Proof.
  unfold bronze.on_natural_key, bronze.natural_key.
  rewrite holds_and, !holds_eq. split.
  - intros [(i & -> & ->) (q & -> & ->)]. by repeat split; eauto.
  - intros (Hk & [i Hi] & [q Hq]). injection Hk as Hi' Hq'.
    split; [exists i|exists q]; split; congruence.
Qed.

(** X4. Against extra info with pairwise different natural keys the left
    join neither drops nor repeats a purchase: its left column is the list of
    purchases. *)
Theorem join_left_one_row_per_purchase {P E}
    (purchases : list (bronze.row P)) (infos : list (bronze.row E)) :
  NoDup (bronze.natural_key <$> infos) →
  (join_left bronze.on_natural_key purchases infos).*1 = purchases.
Proof.
  intros Hnd. induction purchases as [|p purchases IH]; [done|].
  rewrite join_left_cons, fmap_app, IH.
  destruct (filter _ infos) as [|e es] eqn:Hf; [done|].
  assert (He : e ∈ filter (λ r, sql.holds (bronze.on_natural_key p r)) infos)
    by (rewrite Hf; left).
  apply list_elem_of_filter in He as [Hpe He].
  assert (Hone : filter (λ r, sql.holds (bronze.on_natural_key p r)) infos
                 = [e]).
  { rewrite <- (unique_keys_filter bronze.natural_key e infos Hnd He).
    apply list_filter_iff. intros x. rewrite on_natural_key_holds.
    rewrite on_natural_key_holds in Hpe. destruct Hpe as (Hk & Hi & Hq).
    split; [intros (Hkx & _); congruence|].
    intros Hx. split_and!; [congruence|done..]. }
  rewrite Hf in Hone. by injection Hone as ->.
Qed.

Lemma join_left_one_row_per_purchase_witness :
  (join_left bronze.on_natural_key
     [layout.purchase 20240101 1 100 (Some 20240101) "APROVADA" 10;
      layout.purchase 20240101 2 100 (Some 20240101) "APROVADA" 5]
     [layout.extra_info 20240101 1 100 "A"]).*1
  = [layout.purchase 20240101 1 100 (Some 20240101) "APROVADA" 10;
     layout.purchase 20240101 2 100 (Some 20240101) "APROVADA" 5].
Proof.
  apply join_left_one_row_per_purchase.
  apply (bool_decide_unpack _). by vm_compute.
Defined.

Lemma sum_default (vs : list (option Z)) :
  default 0 (sql.sum vs) = sql.wrap64 (foldr Z.add 0 (default 0 <$> vs)).
Proof.
  rewrite sum_wrapped.
  assert (Hsum : foldr Z.add 0 (omap id vs) = foldr Z.add 0 (default 0 <$> vs)).
  { induction vs as [|[v|] vs IH]; csimpl; [done|by rewrite IH|done]. }
  rewrite <- Hsum. by destruct (omap id vs).
Qed.

Lemma sum_None (vs : list (option Z)) :
  sql.sum vs = None ↔ Forall (λ v, v = None) vs.
Proof.
  split; [|apply sum_nulls]. unfold sql.sum.
  destruct (omap id vs) as [|z zs] eqn:Hvs; [intros _|done].
  induction vs as [|[v|] vs IH]; [done|done|].
  constructor; [done|]. by apply IH.
Qed.

Section groupBy_more.
Context {J G : Type} `{EqDecision G}.
Variable by_cols : J → G.
Variable measure : J → option Z.

Lemma sum_of_one_group (v : Z) (g : G) (groups : list G) :
  NoDup groups →
  foldr Z.add 0 ((λ g', if decide (g = g') then v else 0) <$> groups)
  = if decide (g ∈ groups) then v else 0.
Proof.
  induction 1 as [|g' groups Hnew Hnd IH]; [done|]. csimpl. rewrite IH.
  destruct (decide (g = g')) as [->|Hne].
  - rewrite decide_False by done. rewrite decide_True by left. lia.
  - destruct (decide (g ∈ groups)).
    + rewrite decide_True by (by right). lia.
    + rewrite decide_False; [lia|]. by intros [?|?]%elem_of_cons.
Qed.

Lemma sum_over_groups (groups : list G) (df : list J) :
  NoDup groups → (∀ j, j ∈ df → by_cols j ∈ groups) →
  foldr Z.add 0
    ((λ g, foldr Z.add 0
             (default 0 ∘ measure <$> filter (λ j, by_cols j = g) df))
       <$> groups)
  = foldr Z.add 0 (default 0 ∘ measure <$> df).
Proof.
  intros Hnd. induction df as [|a df IH]; intros Hin.
  - clear. induction groups as [|g groups IH]; [done|].
    rewrite fmap_cons. cbn [foldr]. by rewrite IH.
  - csimpl. rewrite <- IH by (intros; apply Hin; by right).
    assert (Ha : by_cols a ∈ groups) by (apply Hin; left).
    rewrite <- (decide_True (default 0 (measure a)) 0 Ha).
    rewrite <- (sum_of_one_group _ _ _ Hnd).
    clear. induction groups as [|g groups IH]; [done|].
    rewrite !fmap_cons. cbn [foldr]. rewrite IH, filter_cons.
    destruct (decide (by_cols a = g)); csimpl; lia.
Qed.

(** Grouping moves the measures around and loses none, up to the
    wrap-around of the totals. *)
Lemma groupBy_sum_total_mod (df : list J) :
  foldr Z.add 0 (default 0 ∘ snd <$> groupBy_sum by_cols measure df)
    mod 2 ^ 64
  = foldr Z.add 0 (default 0 ∘ measure <$> df) mod 2 ^ 64.
Proof.
  unfold groupBy_sum. rewrite <- list_fmap_compose.
  rewrite <- (sum_over_groups (remove_dups (by_cols <$> df)) df);
    [|apply NoDup_remove_dups
     |intros j Hj; by apply elem_of_remove_dups, list_elem_of_fmap_2].
  induction (remove_dups (by_cols <$> df)) as [|g groups IH]; [done|].
  rewrite !fmap_cons. cbn [foldr compose snd].
  rewrite sum_default, <- list_fmap_compose.
  rewrite Zplus_mod, wrap64_mod, IH, <- Zplus_mod. done.
Qed.

Lemma groupBy_sum_total_exact (df : list J) :
  (∀ g, - 2 ^ 63
        ≤ foldr Z.add 0
            (default 0 ∘ measure <$> filter (λ j, by_cols j = g) df)
        < 2 ^ 63) →
  foldr Z.add 0 (default 0 ∘ snd <$> groupBy_sum by_cols measure df)
  = foldr Z.add 0 (default 0 ∘ measure <$> df).
Proof.
  intros Hfit. unfold groupBy_sum. rewrite <- list_fmap_compose.
  rewrite <- (sum_over_groups (remove_dups (by_cols <$> df)) df).
  - apply (f_equal (foldr Z.add 0)), list_fmap_ext. intros _ g _. simpl.
    rewrite sum_default, <- list_fmap_compose. by apply wrap64_in_range.
  - apply NoDup_remove_dups.
  - intros j Hj. by apply elem_of_remove_dups, list_elem_of_fmap_2.
Qed.

End groupBy_more.

(** ** More on the snapshot *)

Section transform_more.
Context {P E : Type} (sch : bronze.schema P E).

Local Abbreviation latest_of df :=
  (_get_latest_records bronze.natural_key bronze.transaction_datetime df).

(** X5. No snapshot row has a NULL gmv_date. *)
Theorem transform_gmv_snapshot_dated now
    (purchase_df : list (bronze.row P))
    (purchase_extra_info_df : list (bronze.row E)) :
  Forall (λ row, is_Some (gmv_date row))
    (transform_gmv_snapshot sch now purchase_df purchase_extra_info_df).
Proof.
  apply Forall_forall. intros row Hrow.
  destruct (transform_gmv_snapshot_groups sch now purchase_df
              purchase_extra_info_df) as (_ & Hkeys & _).
  destruct (proj1 (Hkeys (gmv_key row))) as (j & _ & Hd & _ & Hg).
  { by apply list_elem_of_fmap_2. }
  unfold gmv_group, gmv_key in Hg. injection Hg as <- _. done.
Qed.

(** X6. The snapshot is empty exactly when no joined row has a release date
    and the status APROVADA. *)
Theorem transform_gmv_snapshot_empty_iff now
    (purchase_df : list (bronze.row P))
    (purchase_extra_info_df : list (bronze.row E)) :
  let joined :=
    join_left bronze.on_natural_key (latest_of purchase_df)
      (latest_of purchase_extra_info_df) in
  transform_gmv_snapshot sch now purchase_df purchase_extra_info_df = []
  ↔ ∀ j, j ∈ joined →
      ¬ (is_Some (col (bronze.release_date sch) j)
         ∧ col (bronze.purchase_status sch) j = Some "APROVADA"%string).
Proof.
  intros joined.
  destruct (transform_gmv_snapshot_groups sch now purchase_df
              purchase_extra_info_df) as (_ & Hkeys & _).
  fold joined in Hkeys. split.
  - intros Hnil j Hj [Hd Hs]. rewrite Hnil in Hkeys.
    assert (Hin : gmv_group sch j ∈ gmv_key <$> ([] : list gmv_row))
      by (apply Hkeys; by exists j).
    by apply elem_of_nil in Hin.
  - intros Hnone.
    destruct (transform_gmv_snapshot _ _ _ _) as [|row rows]; [done|].
    destruct (proj1 (Hkeys (gmv_key row))) as (j & Hj & Hd & Hs & _);
      [rewrite fmap_cons; left|].
    by destruct (Hnone j Hj).
Qed.

(** X7. The totals of the snapshot add up to the value of the joined rows
    that have a release date and the status APROVADA, a NULL counting as
    nothing: always up to a multiple of 2^64, and exactly when the value of
    every group lies between -2^63 and 2^63 - 1.  The aggregation loses no
    value and invents none but by wrap-around. *)
Theorem transform_gmv_snapshot_total now
    (purchase_df : list (bronze.row P))
    (purchase_extra_info_df : list (bronze.row E)) :
  let joined :=
    join_left bronze.on_natural_key (latest_of purchase_df)
      (latest_of purchase_extra_info_df) in
  let counted :=
    filter (λ j, is_Some (col (bronze.release_date sch) j)
                 ∧ col (bronze.purchase_status sch) j
                   = Some "APROVADA"%string) joined in
  let totals :=
    foldr Z.add 0
      (default 0 ∘ gmv_total_day <$>
         transform_gmv_snapshot sch now purchase_df purchase_extra_info_df) in
  let value :=
    foldr Z.add 0
      (default 0 ∘ col (bronze.purchase_total_value sch) <$> counted) in
  totals mod 2 ^ 64 = value mod 2 ^ 64
  ∧ ((∀ g, - 2 ^ 63
           ≤ foldr Z.add 0
               (default 0 ∘ col (bronze.purchase_total_value sch) <$>
                  filter (λ j, gmv_group sch j = g) counted)
           < 2 ^ 63) →
     totals = value).
Proof.
  intros joined counted totals value.
  unfold totals, value, counted, transform_gmv_snapshot. fold joined.
  rewrite <- list_fmap_compose.
  rewrite <- (list_filter_iff _ _ joined (eligible_iff sch)).
  split.
  - by rewrite <- groupBy_sum_total_mod with (by_cols := gmv_group sch).
  - intros Hfit.
    by rewrite <- groupBy_sum_total_exact with (by_cols := gmv_group sch).
Qed.

(** X8. A snapshot row has a NULL total exactly when every row that counts
    for its group has a NULL purchase_total_value; it is never 0 for want of
    values. *)
Theorem transform_gmv_snapshot_null_total now
    (purchase_df : list (bronze.row P))
    (purchase_extra_info_df : list (bronze.row E)) (row : gmv_row) :
  let joined :=
    join_left bronze.on_natural_key (latest_of purchase_df)
      (latest_of purchase_extra_info_df) in
  row ∈ transform_gmv_snapshot sch now purchase_df purchase_extra_info_df →
  gmv_total_day row = None
  ↔ ∀ j, j ∈ joined →
      is_Some (col (bronze.release_date sch) j) →
      col (bronze.purchase_status sch) j = Some "APROVADA"%string →
      gmv_group sch j = gmv_key row →
      col (bronze.purchase_total_value sch) j = None.
Proof.
  intros joined Hrow.
  destruct (transform_gmv_snapshot_groups sch now purchase_df
              purchase_extra_info_df) as (_ & _ & Hrows).
  destruct (Hrows row Hrow) as (-> & _). fold joined.
  rewrite sum_None, Forall_fmap, Forall_forall.
  setoid_rewrite list_elem_of_filter. simpl. split.
  - intros Hall j Hj Hd Hs Hg. by apply Hall.
  - intros Hall j [(Hd & Hs & Hg) Hj]. by apply Hall.
Qed.

End transform_more.

Lemma transform_gmv_snapshot_null_total_witness :
  let row := GmvRow (Some 20240101) None None 7 true in
  let purchase_df :=
    [bronze.Row (Some 1) (Some 1) (Some 100) (Some 20240101)
       (layout.PurchaseColumns (Some 20240101) (Some "APROVADA"%string) None)] in
  transform_gmv_snapshot layout.schema 7 purchase_df [] = [row]
  ∧ gmv_total_day row = None.
Proof.
  intros row purchase_df. split; [reflexivity|].
  apply (transform_gmv_snapshot_null_total layout.schema 7 purchase_df [] row);
    [by left|].
  intros j Hj _ _ _. vm_compute in Hj.
  apply list_elem_of_singleton in Hj. by subst j.
Defined.

(** ** More on the load *)

(** X9. A load deletes no row of the target and rewrites none: every row
    stays at its position, and it is either untouched or was latest and has
    lost the flag, gmv_date, subsidiary, gmv_total_day and
    calculation_timestamp as before.  The partitioning stays. *)
Theorem load_only_clears_flags (df : list gmv_row) (name : string)
    (tables : gmap string delta_table) (t : delta_table) :
  tables !! name = Some t →
  ∃ t', (load_data_to_delta df name tables).1 !! name = Some t'
    ∧ partition_by t' = partition_by t
    ∧ (length (table_rows t) ≤ length (table_rows t'))%nat
    ∧ ∀ i r, table_rows t !! i = Some r →
        ∃ r', table_rows t' !! i = Some r'
          ∧ (r' = r ∨ (is_latest r = true ∧ r' = set_is_latest false r)).
Proof.
  intros Ht.
  assert (Hsame : (load_data_to_delta df name tables).1 = tables).
  { destruct df as [|s df]; [done|].
    by rewrite (load_on_existing_target (s :: df) name tables t). }
  rewrite Hsame. exists t. split_and!; [done..|].
  intros i r Hi. exists r. by split; [|left].
Qed.

Lemma load_only_clears_flags_witness :
  let old := GmvRow (Some 20240101) (Some "A"%string) (Some 10) 1 true in
  let t := DeltaTable ["gmv_date"%string] [old] in
  let df := [GmvRow (Some 20240101) (Some "A"%string) (Some 12) 2 true] in
  ∃ t', (load_data_to_delta df "silver.fct_gmv_diario"
           {[ "silver.fct_gmv_diario"%string := t ]}).1
          !! "silver.fct_gmv_diario"%string = Some t'
    ∧ partition_by t' = ["gmv_date"%string].
Proof.
  intros old t df.
  destruct (load_only_clears_flags df "silver.fct_gmv_diario"
              {[ "silver.fct_gmv_diario"%string := t ]} t)
    as (t' & Ht' & Hp & _); [reflexivity|].
  by exists t'.
Defined.

(** X10. A load reads and writes the table it is given and no other. *)
Theorem load_leaves_other_tables (df : list gmv_row) (name other : string)
    (tables : gmap string delta_table) :
  other ≠ name →
  (load_data_to_delta df name tables).1 !! other = tables !! other.
Proof.
  intros Hne. destruct df as [|s df]; [done|].
  destruct (tables !! name) as [t|] eqn:Ht.
  - by rewrite (load_on_existing_target (s :: df) name tables t).
  - rewrite load_absent by done. simpl. by rewrite lookup_insert_ne.
Qed.

Lemma load_leaves_other_tables_witness :
  let other := DeltaTable [] [GmvRow None None None 0 true] in
  (load_data_to_delta [GmvRow (Some 20240101) None (Some 1) 1 true]
     "silver.fct_gmv_diario" {[ "silver.other"%string := other ]}).1
    !! "silver.other"%string = Some other.
Proof.
  intros other.
  rewrite load_leaves_other_tables; [reflexivity|done].
Defined.

(** X11. A load raises exactly when the snapshot has rows and the target is
    in the metastore already; what is raised is the refusal of
    [saveAsTable] to write over a table, and nothing has been written. *)
Theorem load_raises_iff_target_exists (df : list gmv_row) (name : string)
    (tables : gmap string delta_table) :
  (load_data_to_delta df name tables).2 =
    (if decide (df ≠ [] ∧ is_Some (tables !! name))
     then Some (TableAlreadyExists name) else None)
  ∧ ((load_data_to_delta df name tables).2 ≠ None →
     (load_data_to_delta df name tables).1 = tables).
Proof.
  destruct df as [|s df].
  { rewrite decide_False by (by intros [? _]). done. }
  destruct (tables !! name) as [t|] eqn:Ht.
  - rewrite (load_on_existing_target (s :: df) name tables t) by done.
    by rewrite decide_True.
  - rewrite load_absent by done.
    destruct (decide _) as [[_ [? ?]]|]; done.
Qed.

(** ** The merge branch by itself

    The statements of l.146-156, run on a metastore that has the target. *)

(** The merge condition compares with [=]: a latest row whose subsidiary is
    NULL finds no partner in a snapshot row of the same gmv_date and NULL
    subsidiary, and after the append the key has two latest rows. *)
Lemma merge_branch_null_subsidiary_two_latest :
  let old := GmvRow (Some 20240105) None (Some 10) 1000 true in
  let new := GmvRow (Some 20240105) None (Some 12) 2000 true in
  let tables : gmap string delta_table :=
    {[ "silver.fct_gmv_diario"%string := DeltaTable ["gmv_date"%string] [old] ]} in
  one_latest_per_key [old]
  ∧ (exec_writes (merge_branch [new] "silver.fct_gmv_diario") tables).1
      !! "silver.fct_gmv_diario"%string
    = Some (DeltaTable ["gmv_date"%string] [old; new])
  ∧ ¬ one_latest_per_key [old; new].
Proof.
  intros old new tables. split_and!.
  - apply (bool_decide_unpack _). by vm_compute.
  - reflexivity.
  - intros Hinv. apply (bool_decide_pack _) in Hinv. by vm_compute in Hinv.
Qed.

(** X12. The merge branch makes the snapshot row the row to read: on a
    target that is there, with pairwise different keys in the snapshot, a
    latest snapshot row whose key has no NULL is afterwards the only latest
    row of its key in the table, however many latest rows of the key the
    target held before. *)
Theorem merge_branch_makes_snapshot_row_current (df : list gmv_row)
    (name : string) (tables : gmap string delta_table) (t : delta_table)
    (s : gmv_row) :
  tables !! name = Some t →
  NoDup (gmv_key <$> df) →
  s ∈ df → is_latest s = true →
  is_Some (gmv_date s) → is_Some (subsidiary s) →
  ∃ t', exec_writes (merge_branch df name) tables
        = (<[name := t']> tables, None)
    ∧ filter (λ r, is_latest r = true)
        (rows_of_key (gmv_key s) (table_rows t')) = [s].
Proof.
  intros Ht Hnd Hs Hl Hd Hu.
  rewrite (merge_branch_existing df name tables t) by done.
  rewrite decide_False.
  2:{ rewrite Exists_exists. intros (r & _ & Hr). by eapply matched_unique. }
  eexists. split; [done|]. simpl.
  unfold rows_of_key at 1. rewrite filter_app.
  fold (rows_of_key (gmv_key s) (supersede df <$> table_rows t)).
  fold (rows_of_key (gmv_key s) df).
  rewrite rows_of_key_supersede, filter_app, filter_latest_supersede.
  unfold rows_of_key at 2.
  rewrite (unique_keys_filter gmv_key s df Hnd Hs).
  rewrite filter_cons_True, filter_nil by done.
  rewrite (nil_length_inv (filter _ (filter _ _))); [done|].
  apply (length_filter_0 _), Forall_forall.
  intros r [Hlr [Hk _]%list_elem_of_filter]%list_elem_of_filter Hm.
  assert (Hin : s ∈ matched df r).
  { apply elem_of_matched. unfold gmv_key in *. injection Hk as Hd' Hu'.
    split_and!; [done|done|by f_equal|congruence..]. }
  rewrite Hm in Hin. by apply elem_of_nil in Hin.
Qed.

Lemma merge_branch_makes_snapshot_row_current_witness :
  let new := GmvRow (Some 20240101) (Some "A"%string) (Some 12) 3 true in
  let t := DeltaTable ["gmv_date"%string]
             [GmvRow (Some 20240101) (Some "A"%string) (Some 10) 1 true;
              GmvRow (Some 20240101) (Some "A"%string) (Some 11) 2 true] in
  ∃ t', exec_writes (merge_branch [new] "silver.fct_gmv_diario")
          {[ "silver.fct_gmv_diario"%string := t ]}
        = (<["silver.fct_gmv_diario"%string := t']>
             {[ "silver.fct_gmv_diario"%string := t ]}, None)
    ∧ filter (λ r, is_latest r = true)
        (rows_of_key (gmv_key new) (table_rows t')) = [new].
Proof.
  intros new t.
  apply (merge_branch_makes_snapshot_row_current [new] "silver.fct_gmv_diario"
           {[ "silver.fct_gmv_diario"%string := t ]} t new);
    [reflexivity | apply (bool_decide_unpack _); by vm_compute | by left
    | reflexivity | by eexists | by eexists].
Defined.

(** Flagging and appending, on the rows alone. *)
Lemma supersede_append_one_latest (df rows : list gmv_row) :
  one_latest_per_key rows →
  NoDup (gmv_key <$> df) →
  Forall (λ s, is_Some (gmv_date s) ∧ is_Some (subsidiary s)) df →
  one_latest_per_key ((supersede df <$> rows) ++ df).
Proof.
  intros Hinv Hnd Hnn. unfold one_latest_per_key in *.
  rewrite filter_app, fmap_app, filter_latest_supersede.
  apply NoDup_app. split_and!.
  - eapply sublist_NoDup; [exact Hinv|]. apply fmap_sublist, sublist_filter.
  - intros k (r & -> & [Hm [Hl Hr]%list_elem_of_filter]%list_elem_of_filter)
               %list_elem_of_fmap
             (s & Hk & [_ Hs]%list_elem_of_filter)%list_elem_of_fmap.
    rewrite Forall_forall in Hnn. destruct (Hnn s Hs) as [Hd Hu].
    assert (Hin : s ∈ matched df r).
    { apply elem_of_matched. unfold gmv_key in Hk. injection Hk as Hd' Hu'.
      split_and!; [done|done|by unfold gmv_key; f_equal|congruence..]. }
    rewrite Hm in Hin. by apply elem_of_nil in Hin.
  - eapply sublist_NoDup; [exact Hnd|]. apply fmap_sublist, sublist_filter.
Qed.

(** X17. The merge branch keeps the version invariant when the keys of the
    snapshot are pairwise different and free of NULLs: on a target that is
    there and has at most one latest row per key, the merge goes through,
    the append follows, and the table has at most one latest row per key. *)
Theorem merge_branch_keeps_one_latest (df : list gmv_row) (name : string)
    (tables : gmap string delta_table) (t : delta_table) :
  tables !! name = Some t →
  one_latest_per_key (table_rows t) →
  NoDup (gmv_key <$> df) →
  Forall (λ s, is_Some (gmv_date s) ∧ is_Some (subsidiary s)) df →
  ∃ t', exec_writes (merge_branch df name) tables
        = (<[name := t']> tables, None)
    ∧ one_latest_per_key (table_rows t').
Proof.
  intros Ht Hinv Hnd Hnn.
  rewrite (merge_branch_existing df name tables t) by done.
  rewrite decide_False.
  2:{ rewrite Exists_exists. intros (r & _ & Hr). by eapply matched_unique. }
  eexists. split; [done|]. simpl. by apply supersede_append_one_latest.
Qed.

Lemma merge_branch_keeps_one_latest_witness :
  let t := DeltaTable ["gmv_date"%string]
             [GmvRow (Some 20240101) (Some "A"%string) (Some 10) 1 true;
              GmvRow (Some 20240101) (Some "B"%string) (Some 20) 1 true] in
  let df := [GmvRow (Some 20240101) (Some "A"%string) (Some 12) 2 true] in
  ∃ t', exec_writes (merge_branch df "silver.fct_gmv_diario")
          {[ "silver.fct_gmv_diario"%string := t ]}
        = (<["silver.fct_gmv_diario"%string := t']>
             {[ "silver.fct_gmv_diario"%string := t ]}, None)
    ∧ one_latest_per_key (table_rows t').
Proof.
  intros t df.
  apply (merge_branch_keeps_one_latest df "silver.fct_gmv_diario"
           {[ "silver.fct_gmv_diario"%string := t ]} t);
    [reflexivity | apply (bool_decide_unpack _); by vm_compute
    | apply (bool_decide_unpack _); by vm_compute |].
  repeat constructor; by eexists.
Defined.

(** X18. The merge branch is not idempotent: with pairwise different keys in
    the snapshot, running it a second time with the same snapshot goes
    through as well and appends all the rows of the snapshot again. *)
Theorem merge_branch_again_appends_again (df : list gmv_row) (name : string)
    (tables : gmap string delta_table) (t : delta_table) :
  tables !! name = Some t → NoDup (gmv_key <$> df) →
  ∃ t1 t2,
    exec_writes (merge_branch df name) tables = (<[name := t1]> tables, None)
    ∧ exec_writes (merge_branch df name) (<[name := t1]> tables)
      = (<[name := t2]> tables, None)
    ∧ table_rows t2 = (supersede df <$> table_rows t1) ++ df
    ∧ length (table_rows t2) = (length (table_rows t1) + length df)%nat.
Proof.
  intros Ht Hnd.
  assert (Hok : ∀ rows, ¬ Exists (ambiguous df) rows).
  { intros rows. rewrite Exists_exists. intros (r & _ & Hr).
    by eapply matched_unique. }
  rewrite (merge_branch_existing df name tables t) by done.
  rewrite decide_False by apply Hok. eexists. eexists. split; [done|].
  erewrite merge_branch_existing; [|apply lookup_insert_eq].
  rewrite decide_False by apply Hok. rewrite insert_insert_eq.
  split; [reflexivity|]. simpl. split; [done|].
  by rewrite length_app, length_fmap.
Qed.

Lemma merge_branch_again_appends_again_witness :
  let t := DeltaTable ["gmv_date"%string]
             [GmvRow (Some 20240101) (Some "A"%string) (Some 10) 1 true] in
  let df := [GmvRow (Some 20240101) (Some "A"%string) (Some 12) 2 true] in
  let tables : gmap string delta_table :=
    {[ "silver.fct_gmv_diario"%string := t ]} in
  ∃ t1 t2,
    exec_writes (merge_branch df "silver.fct_gmv_diario") tables
      = (<["silver.fct_gmv_diario"%string := t1]> tables, None)
    ∧ exec_writes (merge_branch df "silver.fct_gmv_diario")
        (<["silver.fct_gmv_diario"%string := t1]> tables)
      = (<["silver.fct_gmv_diario"%string := t2]> tables, None)
    ∧ length (table_rows t2) = (length (table_rows t1) + 1)%nat.
Proof.
  intros t df tables.
  destruct (merge_branch_again_appends_again df "silver.fct_gmv_diario"
              tables t)
    as (t1 & t2 & H1 & H2 & _ & Hlen);
    [reflexivity | apply (bool_decide_unpack _); by vm_compute |].
  by exists t1, t2.
Defined.

(** Among the rows whose key has no NULL every load of a snapshot with
    pairwise different keys keeps one latest row per key. *)
Lemma load_keeps_one_latest_of_known_keys (df : list gmv_row) (name : string)
    (tables : gmap string delta_table) :
  NoDup (gmv_key <$> df) →
  (∀ t, tables !! name = Some t →
     one_latest_per_key
       (filter (λ s, is_Some (gmv_date s) ∧ is_Some (subsidiary s))
          (table_rows t))) →
  ∀ t', (load_data_to_delta df name tables).1 !! name = Some t' →
    one_latest_per_key
      (filter (λ s, is_Some (gmv_date s) ∧ is_Some (subsidiary s))
         (table_rows t')).
Proof.
  intros Hnd Hinv t'. destruct df as [|s df]; [apply Hinv|].
  destruct (tables !! name) as [t|] eqn:Ht.
  - rewrite (load_on_existing_target (s :: df) name tables t) by done.
    simpl. rewrite Ht. intros [= <-]. by apply Hinv.
  - rewrite load_absent by done. simpl. rewrite lookup_insert_eq.
    intros [= <-]. simpl. unfold one_latest_per_key.
    eapply sublist_NoDup; [exact Hnd|].
    apply fmap_sublist. etrans; apply sublist_filter.
Qed.

(** ** More on the job *)

Section job_more.
Context {P E I : Type} (sch : bronze.schema P E).

(** X13. [run] raises in two cases only.  One of the three bronze tables is
    not there, the unused [bronze.product_item] included: it names the first
    one missing.  Or the three are there, the snapshot of the day has a row
    and the target is in the metastore already: the load is refused.  In
    both cases nothing has been written. *)
Theorem run_raises_on_missing_source_or_existing_target
    (processing_date now : Z) (lk : lake P E I) :
  match purchase lk, product_item lk, purchase_extra_info lk with
  | None, _, _ =>
      run sch processing_date now lk
      = (lk, Some (TableOrViewNotFound "bronze.purchase"))
  | Some _, None, _ =>
      run sch processing_date now lk
      = (lk, Some (TableOrViewNotFound "bronze.product_item"))
  | Some _, Some _, None =>
      run sch processing_date now lk
      = (lk, Some (TableOrViewNotFound "bronze.purchase_extra_info"))
  | Some ps, Some _, Some es =>
      let of_the_day {C} (r : bronze.row C) :=
        sql.holds (sql.eq (bronze.transaction_date r) (Some processing_date)) in
      let snapshot :=
        transform_gmv_snapshot sch now (filter of_the_day ps)
          (filter of_the_day es) in
      (run sch processing_date now lk).2
      = (if decide (snapshot ≠ []
                    ∧ is_Some (delta lk !! "silver.fct_gmv_diario"%string))
         then Some (TableAlreadyExists "silver.fct_gmv_diario") else None)
      ∧ ((run sch processing_date now lk).2 ≠ None →
         (run sch processing_date now lk).1 = lk)
  end.
Proof.
  unfold run, extract_source_data.
  destruct lk as [[ps|] [items|] [es|] tables]; simpl; try done.
  destruct (transform_gmv_snapshot _ _ _ _) as [|s df] eqn:Hdf.
  { rewrite decide_False by (by intros [? _]). done. }
  destruct (tables !! "silver.fct_gmv_diario"%string) as [t|] eqn:Ht.
  - rewrite (load_on_existing_target (s :: df) _ tables t) by done.
    by rewrite decide_True.
  - rewrite load_absent by done.
    destruct (decide _) as [[_ [? ?]]|]; done.
Qed.

(** X14. When no purchase was captured on the processing date, [run]
    changes nothing and raises nothing: no table is created, no row is
    flagged. *)
Theorem run_without_purchases_of_the_day (processing_date now : Z)
    (ps : list (bronze.row P)) (items : list (bronze.item I))
    (es : list (bronze.row E)) (tables : gmap string delta_table) :
  Forall (λ r, bronze.transaction_date r ≠ Some processing_date) ps →
  run sch processing_date now (Lake (Some ps) (Some items) (Some es) tables)
  = (Lake (Some ps) (Some items) (Some es) tables, None).
Proof.
  intros Hnone. unfold run, extract_source_data. simpl.
  rewrite (nil_length_inv (filter _ ps)); [done|].
  apply (length_filter_0 _). eapply Forall_impl; [exact Hnone|].
  intros r Hr (d & Hd & [= <-])%holds_eq. done.
Qed.

(** X15. Every run keeps the version invariant on the rows whose key has no
    NULL: if the target, when there is one, has at most one latest row for
    every such key, so it has after the run, raised or not. *)
Theorem run_keeps_one_latest_of_known_keys (processing_date now : Z)
    (lk : lake P E I) :
  (∀ t, delta lk !! "silver.fct_gmv_diario"%string = Some t →
     one_latest_per_key
       (filter (λ s, is_Some (gmv_date s) ∧ is_Some (subsidiary s))
          (table_rows t))) →
  ∀ t', delta (run sch processing_date now lk).1
          !! "silver.fct_gmv_diario"%string = Some t' →
    one_latest_per_key
      (filter (λ s, is_Some (gmv_date s) ∧ is_Some (subsidiary s))
         (table_rows t')).
Proof.
  intros Hinv t'. unfold run.
  destruct (extract_source_data processing_date lk) as [e|[[ps items] es]];
    simpl; [apply Hinv|].
  apply load_keeps_one_latest_of_known_keys; [|done].
  apply (transform_gmv_snapshot_groups sch now).
Qed.

End job_more.

Lemma run_without_purchases_of_the_day_witness :
  let lk : lake layout.purchase_columns layout.extra_info_columns unit :=
    Lake (Some [layout.purchase 20240101 1 100 (Some 20240105) "APROVADA" 10])
      (Some []) (Some []) ∅ in
  run layout.schema 20240102 2000 lk = (lk, None).
Proof.
  intros lk. apply run_without_purchases_of_the_day.
  repeat constructor. done.
Defined.

Lemma run_keeps_one_latest_of_known_keys_witness :
  let old := GmvRow (Some 20240105) (Some "A"%string) (Some 7) 500 true in
  let lk : lake layout.purchase_columns layout.extra_info_columns unit :=
    Lake (Some [layout.purchase 20240101 1 100 (Some 20240105) "APROVADA" 10])
      (Some []) (Some [layout.extra_info 20240101 1 100 "A"])
      {[ "silver.fct_gmv_diario"%string :=
           DeltaTable ["gmv_date"%string] [old] ]} in
  delta (run layout.schema 20240101 1000 lk).1
    !! "silver.fct_gmv_diario"%string
  = Some (DeltaTable ["gmv_date"%string] [old])
  ∧ one_latest_per_key
      (filter (λ s, is_Some (gmv_date s) ∧ is_Some (subsidiary s)) [old]).
Proof.
  intros old lk. split; [reflexivity|].
  refine (run_keeps_one_latest_of_known_keys layout.schema 20240101 1000 lk _
            (DeltaTable ["gmv_date"%string] [old]) _).
  - intros t Ht. vm_compute in Ht. injection Ht as <-.
    apply (bool_decide_unpack _). by vm_compute.
  - reflexivity.
Defined.

(** ** The handlers that [configure_logging] leaves *)

Section logger_facts.
Context {H : Type} `{EqDecision H}.

Lemma removeHandler_middle (kept rest : list H) (h : H) :
  h ∉ kept → removeHandler h (kept ++ h :: rest) = kept ++ rest.
Proof.
  induction kept as [|x kept IH]; intros Hh; simpl.
  - by rewrite decide_True.
  - apply not_elem_of_cons in Hh as [Hne Hh].
    rewrite decide_False by done. by rewrite IH.
Qed.

Lemma remove_each_every_second (fuel : nat) (kept rest : list H) :
  NoDup (kept ++ rest) → (length rest ≤ fuel)%nat →
  remove_each fuel (length kept) (kept ++ rest) = kept ++ every_second rest.
Proof.
  revert kept rest. induction fuel as [|fuel IH]; intros kept rest Hnd Hlen.
  { destruct rest; [done|simpl in Hlen; lia]. }
  destruct rest as [|h rest]; simpl.
  { by rewrite lookup_ge_None_2 by (rewrite length_app; simpl; lia). }
  rewrite list_lookup_middle by done.
  rewrite removeHandler_middle.
  2:{ apply NoDup_app in Hnd as (_ & Hdisj & _). intros Hin.
      apply (Hdisj h Hin). left. }
  destruct rest as [|x rest].
  - rewrite app_nil_r. destruct fuel; [done|]. simpl.
    by rewrite lookup_ge_None_2 by lia.
  - replace (S (length kept)) with (length (kept ++ [x]))
      by (rewrite length_app; simpl; lia).
    rewrite (cons_middle x kept rest), app_assoc.
    rewrite IH.
    + by rewrite <- app_assoc.
    + rewrite <- app_assoc. simpl.
      apply NoDup_app in Hnd as (Hk & Hdisj & Hr).
      apply NoDup_cons in Hr as [_ Hr].
      apply NoDup_app. split_and!; [done| |done].
      intros y Hy Hin. apply (Hdisj y Hy). by right.
    + simpl in Hlen. lia.
Qed.

(** X16. The loop that should detach the handlers of the logger detaches
    every other one: of handlers [h1; h2; h3; ...] it leaves [h2; h4; ...],
    half of them rounded down, and more rounds of the loop change nothing. *)
Theorem detach_handlers_leaves_every_second (handlers : list H) :
  NoDup handlers →
  detach_handlers handlers = every_second handlers
  ∧ (∀ fuel, (length handlers ≤ fuel)%nat →
       remove_each fuel 0 handlers = every_second handlers)
  ∧ length (detach_handlers handlers) = (length handlers / 2)%nat.
Proof.
  intros Hnd.
  assert (Hall : ∀ fuel, (length handlers ≤ fuel)%nat →
            remove_each fuel 0 handlers = every_second handlers).
  { intros fuel Hfuel. by apply (remove_each_every_second fuel [] handlers). }
  assert (Hd : detach_handlers handlers = every_second handlers).
  { unfold detach_handlers. destruct handlers; [done|]. by apply Hall. }
  split_and!; [done..|]. rewrite Hd. clear.
  assert (Hhalf : ∀ n (l : list H), (length l ≤ n)%nat →
            length (every_second l) = (length l / 2)%nat).
  { induction n as [|n IH]; intros [|a [|b l]] Hl; try done;
      cbn [length] in Hl; [lia|].
    cbn [every_second length]. rewrite IH by lia.
    replace (S (S (length l))) with (1 * 2 + length l)%nat by lia.
    rewrite Nat.div_add_l by lia. lia. }
  by apply (Hhalf (length handlers)).
Qed.

End logger_facts.

Lemma detach_handlers_leaves_every_second_witness :
  detach_handlers ["stream"; "file"; "syslog"]%string = ["file"%string].
Proof.
  destruct (detach_handlers_leaves_every_second
              ["stream"; "file"; "syslog"]%string) as (Hd & _).
  - apply (bool_decide_unpack _). by vm_compute.
  - exact Hd.
Defined.

(** ** Examples for the window and the join *)

Lemma get_latest_records_order_independent_witness :
  _get_latest_records fst snd [(1, Some 5); (2, Some 3); (1, Some 7)]
  ≡ₚ _get_latest_records fst snd [(1, Some 7); (1, Some 5); (2, Some 3)].
Proof.
  apply get_latest_records_order_independent.
  - apply (bool_decide_unpack _). by vm_compute.
  - apply (Permutation_app_comm [_; _] [_]).
Defined.

Lemma get_latest_records_ignores_stale_witness :
  _get_latest_records fst snd [(1, Some 7); (2, Some 3); (1, Some 5)]
  = _get_latest_records fst snd [(1, Some 7); (2, Some 3)].
Proof.
  apply (get_latest_records_ignores_stale fst snd
           [(1, Some 7); (2, Some 3)] (1, Some 7) (1, Some 5));
    [by left | reflexivity | simpl; lia].
Defined.

(** X19. A purchase whose purchase_id or purchase_partition is NULL finds no
    extra info, whatever extra info there is: it is joined to NULLs only. *)
Theorem join_left_null_key {P E} (purchases : list (bronze.row P))
    (infos : list (bronze.row E)) (p : bronze.row P) :
  p ∈ purchases →
  bronze.purchase_id p = None ∨ bronze.purchase_partition p = None →
  (p, None) ∈ join_left bronze.on_natural_key purchases infos
  ∧ ∀ o, (p, o) ∈ join_left bronze.on_natural_key purchases infos → o = None.
Proof.
  intros Hp Hnull.
  assert (Hnone : ∀ e : bronze.row E,
            ¬ sql.holds (bronze.on_natural_key p e)).
  { intros e (_ & [i Hi] & [q Hq])%on_natural_key_holds.
    destruct Hnull; congruence. }
  split.
  - apply elem_of_join_left. split; [done|]. intros e _. apply Hnone.
  - intros [e|] Ho; [|done].
    apply elem_of_join_left in Ho as (_ & _ & Hh). by destruct (Hnone e).
Qed.

Lemma join_left_null_key_witness :
  let p : bronze.row layout.purchase_columns :=
    bronze.Row None (Some 1) (Some 100) (Some 20240101)
      (layout.PurchaseColumns (Some 20240101) (Some "APROVADA"%string)
         (Some 10)) in
  let e : bronze.row layout.extra_info_columns :=
    bronze.Row None (Some 1) (Some 100) (Some 20240101)
      (layout.ExtraInfoColumns (Some "A"%string)) in
  (p, None) ∈ join_left bronze.on_natural_key [p] [e].
Proof.
  intros p e.
  apply (join_left_null_key [p] [e] p); [by left|by left].
Defined.
